(** * SormGPT chat bot (zz.js): knowledge resolution and teaching

    A shallow embedding of the message handler of [zz.js]: the built-in
    table [DEFAULT_KNOWLEDGE], the three database functions [getAnswer],
    [saveLog] and [teachQuestion], the handlers [handleHelp],
    [handleStats] and [handleMessage], and the event listeners that
    dispatch an inbound message to them.

    Conventions of the model.
    - A JavaScript string is a sequence of code units.  The model covers
      text whose code units are below 256 (the Latin-1 range), held in a
      [string]; [trim] and [toLowerCase] are the ECMAScript functions
      restricted to that range.
    - The sqlite database is the pair of tables [memory] and [logs] (the
      table [users] is created and never used).  A statement takes effect
      at the point where the code issues it, and its completion callback
      runs at once: inbound messages are handled one after the other, and
      the order in the trace is the order of issue.  Every statement may
      fail: the outcomes of the statements to come are read from a list
      ([faults]), [Some m] being an error whose message is [m].
    - Outbound messages are kept as the constructor of their template
      ([Reply]), with the interpolated values as arguments. *)

From Stdlib Require Import Ascii String NArith Bool List Lia.
From stdpp Require Import base option list gmap strings fin_maps sorting.

Local Open Scope string_scope.

(** ** JavaScript strings *)

Module JsString.

Definition code (c : ascii) : N := N_of_ascii c.

(** WhiteSpace and LineTerminator code points below 256: TAB, LF, VT, FF,
    CR, SP and NBSP. *)
Definition is_ws (c : ascii) : bool :=
  let n := code c in
  ((9 <=? n) && (n <=? 13) || (n =? 32) || (n =? 160))%N.

(** [String.prototype.toLowerCase] on one code unit: A-Z, and the Latin-1
    capitals U+00C0..U+00DE except the multiplication sign U+00D7. *)
Definition lower (c : ascii) : ascii :=
  let n := code c in
  if ((65 <=? n) && (n <=? 90)
      || (192 <=? n) && (n <=? 222) && negb (n =? 215))%N
  then ascii_of_N (n + 32) else c.

Fixpoint toLowerCase (s : string) : string :=
  match s with
  | EmptyString => EmptyString
  | String c s' => String (lower c) (toLowerCase s')
  end.

Definition isEmpty (s : string) : bool :=
  match s with EmptyString => true | _ => false end.

Fixpoint trimStart (s : string) : string :=
  match s with
  | EmptyString => EmptyString
  | String c s' => if is_ws c then trimStart s' else s
  end.

Fixpoint trimEnd (s : string) : string :=
  match s with
  | EmptyString => EmptyString
  | String c s' =>
      let r := trimEnd s' in
      if is_ws c && isEmpty r then EmptyString else String c r
  end.

Definition trim (s : string) : string := trimEnd (trimStart s).

Fixpoint startsWith (s p : string) : bool :=
  match p, s with
  | EmptyString, _ => true
  | String a p', String b s' => Ascii.eqb a b && startsWith s' p'
  | String _ _, EmptyString => false
  end.

(** [s.substring(n)] for [0 <= n]: the text from index [n] on, empty when
    [n] is past the end. *)
Fixpoint substring (n : nat) (s : string) : string :=
  match n, s with
  | O, _ => s
  | S n', String _ s' => substring n' s'
  | S _, EmptyString => EmptyString
  end.

(** [s.split(sep)] for a separator of one code unit: one segment more than
    there are separators, so never an empty array. *)
Fixpoint split (sep : ascii) (s : string) : list string :=
  match s with
  | EmptyString => [EmptyString]
  | String c s' =>
      if Ascii.eqb c sep then EmptyString :: split sep s'
      else match split sep s' with
           | seg :: rest => String c seg :: rest
           | [] => [String c EmptyString]
           end
  end.

(** [re.test(s)] for a regular expression that is a literal text without
    anchors: the text occurs somewhere in [s]. *)
Fixpoint includes (s p : string) : bool :=
  startsWith s p ||
  match s with
  | EmptyString => false
  | String _ s' => includes s' p
  end.

Fixpoint hasChar (c : ascii) (s : string) : bool :=
  match s with
  | EmptyString => false
  | String d s' => Ascii.eqb d c || hasChar c s'
  end.

End JsString.

Import JsString.

(** ** JavaScript values and the built-in table *)

Inductive JsVal : Type :=
| VUndefined
| VNull
| VString (s : string)
| VFunction (name : string)
| VObject (name : string).

(** ToBoolean, as [if (v)] and [!v] apply it. *)
Definition truthy (v : JsVal) : bool :=
  match v with
  | VUndefined | VNull => false
  | VString s => negb (isEmpty s)
  | VFunction _ | VObject _ => true
  end.

Definition nl : string := String (ascii_of_N 10) EmptyString.

(** The own properties of the object literal [DEFAULT_KNOWLEDGE]. *)
Definition DEFAULT_KNOWLEDGE : list (string * string) :=
  [ ("who are you", "I am SormGPT, your helpful assistant.");
    ("who is your developer", "@l9shx is my developer.");
    ("hello", "Hello! How can I help you today?");
    ("hi", "Hi there! What can I do for you?");
    ("help", "You can ask me anything or teach me new things using:"
             ++ nl ++ nl ++ "!teach question | answer") ].

(** The properties an object literal inherits from [Object.prototype]:
    eleven functions, and the accessor [__proto__], which yields the
    prototype object itself. *)
Definition Object_prototype : list (string * JsVal) :=
  [ ("constructor", VFunction "Object");
    ("__defineGetter__", VFunction "__defineGetter__");
    ("__defineSetter__", VFunction "__defineSetter__");
    ("hasOwnProperty", VFunction "hasOwnProperty");
    ("__lookupGetter__", VFunction "__lookupGetter__");
    ("__lookupSetter__", VFunction "__lookupSetter__");
    ("isPrototypeOf", VFunction "isPrototypeOf");
    ("propertyIsEnumerable", VFunction "propertyIsEnumerable");
    ("toString", VFunction "toString");
    ("valueOf", VFunction "valueOf");
    ("__proto__", VObject "Object.prototype");
    ("toLocaleString", VFunction "toLocaleString") ].

Fixpoint assoc {V : Type} (k : string) (l : list (string * V)) : option V :=
  match l with
  | [] => None
  | (k', v) :: l' => if String.eqb k k' then Some v else assoc k l'
  end.

(** [DEFAULT_KNOWLEDGE[key]]: an own property first, then the prototype
    chain, [undefined] when neither has the key. *)
Definition DEFAULT_KNOWLEDGE_get (key : string) : JsVal :=
  match assoc key DEFAULT_KNOWLEDGE with
  | Some a => VString a
  | None =>
      match assoc key Object_prototype with
      | Some v => v
      | None => VUndefined
      end
  end.

(** ** The database *)

(** A row of [memory] without its key. [usage_count] is kept as an unbounded
    natural: the model does not cover a counter leaving sqlite's 64-bit
    integer range. *)
Record KnowledgeEntry : Type := mkEntry {
  answer : string;
  created_at : N;
  usage_count : N
}.

Record LogEntry : Type := mkLog {
  log_user_id : Z;
  log_username : string;
  log_message : string;
  log_created_at : N
}.

Record Db : Type := mkDb {
  memory : gmap string KnowledgeEntry;
  logs : list LogEntry
}.

Inductive Statement : Type :=
| SelectAnswer (question : string)
| UpdateUsage (question : string)
| InsertOrReplaceMemory (question ans : string)
| InsertLog (user_id : Z) (username message : string)
| CountMemory
| CountLogs
| SelectTopQuestions.

(** ** Outbound messages *)

Inductive Reply : Type :=
| InvalidFormat
| BuiltinConflict
| Learned (question ans : string)
| SaveFailed
| ProcessingError
| Answer (v : JsVal)
| DontKnow
| HelpText
| StatsText (learned interactions : nat) (top : list (string * N))
| StatsFailed.

(** ** The world a handler runs in *)

(** What a handler does to the outside, in the order it does it. *)
Inductive Event : Type :=
| Issued (s : Statement)          (* a statement handed to sqlite *)
| Logged (line : string)          (* logger.error *)
| Sent (chat : Z) (r : Reply).    (* bot.sendMessage *)

Record World : Type := mkWorld {
  db : Db;
  now : N;                        (* CURRENT_TIMESTAMP *)
  faults : list (option string);  (* outcomes of the statements to come *)
  trace : list Event              (* oldest first *)
}.

Definition M (A : Type) : Type := World → A * World.

Global Instance M_ret : MRet M := λ A (a : A) (w : World), (a, w).
Global Instance M_bind : MBind M :=
  λ A B (f : A → M B) (m : M A) (w : World), let '(a, w') := m w in f a w'.

Definition getDb : M Db := λ w, (db w, w).
Definition putDb (d : Db) : M unit := λ w,
  (tt, mkWorld d (now w) (faults w) (trace w)).
Definition clock : M N := λ w, (now w, w).

Definition emit (e : Event) : M unit := λ w,
  (tt, mkWorld (db w) (now w) (faults w) (trace w ++ [e])).

(** The outcome of the [n]-th statement to come: success once the list is
    used up. *)
Definition outcome (n : nat) (w : World) : option string :=
  match faults w !! n with
  | Some f => f
  | None => None
  end.

(** Issue a statement: it enters the trace and its outcome is taken from
    [faults]. *)
Definition issue (s : Statement) : M (option string) := λ w,
  (outcome 0 w,
   mkWorld (db w) (now w) (tail (faults w)) (trace w ++ [Issued s])).

Definition logger_error (line : string) : M unit := emit (Logged line).

Definition sendMessage (chat : Z) (r : Reply) : M unit := emit (Sent chat r).

Definition issued (w : World) : list Statement :=
  omap (λ e, match e with Issued s => Some s | _ => None end) (trace w).

Definition sent (w : World) : list (Z * Reply) :=
  omap (λ e, match e with Sent c r => Some (c, r) | _ => None end) (trace w).

Definition errlog (w : World) : list string :=
  omap (λ e, match e with Logged l => Some l | _ => None end) (trace w).

(** ** The sqlite statements of the program *)

(** [SELECT answer FROM memory WHERE question = ?] through [db.get]: the
    error, or the [answer] column of the row when there is one. *)
Definition db_select_answer (question : string) : M (string + option string) :=
  err ← issue (SelectAnswer question);
  match err with
  | Some m => mret (inl m)
  | None => d ← getDb; mret (inr (answer <$> memory d !! question))
  end.

Definition bump (e : KnowledgeEntry) : KnowledgeEntry :=
  mkEntry (answer e) (created_at e) (usage_count e + 1).

(** [UPDATE memory SET usage_count = usage_count + 1 WHERE question = ?]:
    no row changes when none has the key. *)
Definition db_update_usage (question : string) : M (option string) :=
  err ← issue (UpdateUsage question);
  match err with
  | Some m => mret (Some m)
  | None =>
      d ← getDb;
      putDb (mkDb (alter bump question (memory d)) (logs d));;
      mret None
  end.

(** [INSERT OR REPLACE INTO memory (question, answer) VALUES (?, ?)]: a row
    with the same primary key is deleted, then the new row is inserted; the
    columns the statement does not name take their defaults,
    [CURRENT_TIMESTAMP] for [created_at] and [0] for [usage_count]. *)
Definition db_insert_or_replace (question ans : string) : M (option string) :=
  err ← issue (InsertOrReplaceMemory question ans);
  match err with
  | Some m => mret (Some m)
  | None =>
      d ← getDb;
      t ← clock;
      putDb (mkDb (<[question := mkEntry ans t 0]> (delete question (memory d)))
                  (logs d));;
      mret None
  end.

(** [INSERT INTO logs (user_id, username, message) VALUES (?, ?, ?)]. *)
Definition db_insert_log (user_id : Z) (username message : string)
  : M (option string) :=
  err ← issue (InsertLog user_id username message);
  match err with
  | Some m => mret (Some m)
  | None =>
      d ← getDb;
      t ← clock;
      putDb (mkDb (memory d) (logs d ++ [mkLog user_id username message t]));;
      mret None
  end.

Definition db_count_memory : M (string + nat) :=
  err ← issue CountMemory;
  match err with
  | Some m => mret (inl m)
  | None => d ← getDb; mret (inr (size (memory d)))
  end.

Definition db_count_logs : M (string + nat) :=
  err ← issue CountLogs;
  match err with
  | Some m => mret (inl m)
  | None => d ← getDb; mret (inr (length (logs d)))
  end.

Definition by_usage_desc (x y : string * KnowledgeEntry) : Prop :=
  (usage_count (snd y) ≤ usage_count (snd x))%N.

Global Instance by_usage_desc_dec : RelDecision by_usage_desc.
Proof. intros x y. unfold by_usage_desc. apply _. Defined.

(** [SELECT question, usage_count FROM memory ORDER BY usage_count DESC
    LIMIT 5]; sqlite leaves the order of rows with equal counts open, the
    model takes the one of a stable sort of the table. *)
Definition db_top_questions : M (string + list (string * N)) :=
  err ← issue SelectTopQuestions;
  match err with
  | Some m => mret (inl m)
  | None =>
      d ← getDb;
      mret (inr (take 5 ((λ r, (fst r, usage_count (snd r))) <$>
                         merge_sort by_usage_desc (map_to_list (memory d)))))
  end.

(** ** Database functions *)

(** [callback(err)] is rendered [callback (Some m) VUndefined] and
    [callback(null, v)] is [callback None v]. *)
Definition getAnswer {A : Type} (question : string)
    (callback : option string → JsVal → M A) : M A :=
  let question := trim (toLowerCase question) in
  if truthy (DEFAULT_KNOWLEDGE_get question) then
    callback None (DEFAULT_KNOWLEDGE_get question)
  else
    r ← db_select_answer question;
    match r with
    | inl m =>
        logger_error ("Error fetching answer: " ++ m);;
        callback (Some m) VUndefined
    | inr (Some a) =>
        e ← db_update_usage question;
        match e with
        | Some m => logger_error ("Error updating usage count: " ++ m)
        | None => mret tt
        end;;
        callback None (VString a)
    | inr None => callback None VNull
    end.

Definition saveLog (userId : Z) (username message : string) : M unit :=
  e ← db_insert_log userId username message;
  match e with
  | Some m => logger_error ("Error saving log: " ++ m)
  | None => mret tt
  end.

Definition teachQuestion {A : Type} (question ans : string)
    (callback : bool → M A) : M A :=
  e ← db_insert_or_replace (trim (toLowerCase question)) (trim ans);
  match e with
  | Some m => logger_error ("Error teaching question: " ++ m);; callback false
  | None => callback true
  end.

(** ** Handlers *)

Record Msg : Type := mkMsg {
  chat_id : Z;
  from_id : Z;
  from_username : option string;
  text : option string
}.

(** [!v] for a value that is a string or [undefined]. *)
Definition falsy (v : option string) : bool :=
  match v with
  | None => true
  | Some s => isEmpty s
  end.

(** [v || d]. *)
Definition orElse (v : option string) (d : string) : string :=
  match v with
  | Some s => if isEmpty s then d else s
  | None => d
  end.

Definition handleHelp (msg : Msg) : M unit :=
  sendMessage (chat_id msg) HelpText.

Definition handleStats (msg : Msg) : M unit :=
  r1 ← db_count_memory;
  match r1 with
  | inl m =>
      logger_error ("Error getting memory count: " ++ m);;
      sendMessage (chat_id msg) StatsFailed
  | inr memoryCount =>
      r2 ← db_count_logs;
      match r2 with
      | inl m =>
          logger_error ("Error getting log count: " ++ m);;
          sendMessage (chat_id msg) StatsFailed
      | inr logCount =>
          r3 ← db_top_questions;
          match r3 with
          | inl m =>
              logger_error ("Error getting top questions: " ++ m);;
              sendMessage (chat_id msg) StatsFailed
          | inr topQuestions =>
              sendMessage (chat_id msg)
                          (StatsText memoryCount logCount topQuestions)
          end
      end
  end.

(** The body of the [try] block of TEACH MODE, from the teach input [data]
    on.  The destructuring [[question, answer] = ...] leaves [undefined]
    where the array is too short.  The [catch] branch is the [TypeError] of
    a method call on [undefined]; the format check before it keeps it from
    being reached. *)
Definition teach (chat : Z) (data : string) : M unit :=
  let parts := trim <$> split "|" data in
  let question := parts !! 0%nat in
  let ans := parts !! 1%nat in
  if falsy question || falsy ans then
    sendMessage chat InvalidFormat
  else
    match question, ans with
    | Some question, Some ans =>
        if truthy (DEFAULT_KNOWLEDGE_get (toLowerCase question)) then
          sendMessage chat BuiltinConflict
        else
          teachQuestion question ans (λ success : bool,
            if success then sendMessage chat (Learned question ans)
            else sendMessage chat SaveFailed)
    | _, _ =>
        logger_error "Error in teach mode: TypeError";;
        sendMessage chat ProcessingError
    end.

Definition handleMessage (msg : Msg) : M unit :=
  if falsy (text msg) then mret tt
  else
    let message := trim (orElse (text msg) "") in
    saveLog (from_id msg) (orElse (from_username msg) "Unknown") message;;
    if startsWith message "!teach" then
      teach (chat_id msg) (trim (substring 6 message))
    else
      getAnswer message (λ err ans,
        match err with
        | Some _ => sendMessage (chat_id msg) ProcessingError
        | None =>
            if truthy ans then sendMessage (chat_id msg) (Answer ans)
            else sendMessage (chat_id msg) DontKnow
        end).

(** ** Event listeners *)

(** [bot.on('message', ...)]. *)
Definition onMessage (msg : Msg) : M unit :=
  if negb (falsy (text msg)) && negb (startsWith (orElse (text msg) "") "/")
  then handleMessage msg
  else mret tt.

(** [bot.onText(re, handler)] for a literal [re]. *)
Definition onText (re : string) (handler : Msg → M unit) (msg : Msg) : M unit :=
  match text msg with
  | Some t => if includes t re then handler msg else mret tt
  | None => mret tt
  end.

(** One inbound update: the transport library first emits ['message'], then
    runs every [onText] registration whose expression matches, in the order
    of registration. *)
Definition processUpdate (msg : Msg) : M unit :=
  onMessage msg;;
  onText "/help" handleHelp msg;;
  onText "/stats" handleStats msg.

(** ** Views used by the statements *)

(** The resolver: [getAnswer] with a callback that hands back its
    arguments. *)
Definition resolve (rawText : string) : M (option string * JsVal) :=
  getAnswer rawText (λ err ans, mret (err, ans)).

Definition normalize (s : string) : string := trim (toLowerCase s).

Definition isBuiltinKey (k : string) : bool :=
  bool_decide (is_Some (assoc k DEFAULT_KNOWLEDGE)).

Definition emptyDb : Db := mkDb ∅ [].

Definition world (d : Db) (t : N) (fs : list (option string)) : World :=
  mkWorld d t fs [].

(** The databases the program can produce: the empty tables of a first
    start, then one inbound update after the other, at any time and under
    any outcomes of the statements. *)
Inductive reachable : Db → Prop :=
| reachable_init : reachable emptyDb
| reachable_step (d : Db) (msg : Msg) (t : N) (fs : list (option string)) :
    reachable d →
    reachable (db (snd (processUpdate msg (world d t fs)))).

(** The two values the destructuring in [teach] binds. *)
Definition questionPart (data : string) : option string :=
  (trim <$> split "|" data) !! 0%nat.

Definition answerPart (data : string) : option string :=
  (trim <$> split "|" data) !! 1%nat.

(** The text before the first [sep], the whole text when there is none. *)
Fixpoint beforeFirst (sep : ascii) (s : string) : string :=
  match s with
  | EmptyString => EmptyString
  | String c s' =>
      if Ascii.eqb c sep then EmptyString else String c (beforeFirst sep s')
  end.

(** The text after the first [sep], nothing when there is none. *)
Fixpoint afterFirst (sep : ascii) (s : string) : option string :=
  match s with
  | EmptyString => None
  | String c s' => if Ascii.eqb c sep then Some s' else afterFirst sep s'
  end.

(** The parse the specification words: split on the first separator only,
    the question before it, the answer everything after it, both trimmed. *)
Definition spec_question (rawInput : string) : string :=
  trim (beforeFirst "|" rawInput).

Definition spec_answer (rawInput : string) : option string :=
  trim <$> afterFirst "|" rawInput.

(** [n] resolutions of the same text, one after the other. *)
Fixpoint resolves (n : nat) (rawText : string) (w : World) : World :=
  match n with
  | O => w
  | S n' => resolves n' rawText (snd (resolve rawText w))
  end.

(** A teach that answered [Learned q a]. *)
Definition learned (chat : Z) (data q a : string) (w : World) : Prop :=
  sent (snd (teach chat data w)) = (sent w ++ [(chat, Learned q a)])%list.

Fixpoint allWs (s : string) : bool :=
  match s with
  | EmptyString => true
  | String c s' => is_ws c && allWs s'
  end.

(** No key of [memory] passes the guard of [getAnswer]: every row can be
    reached by a resolution. *)
Definition store_ok (d : Db) : Prop :=
  ∀ k e, memory d !! k = Some e → truthy (DEFAULT_KNOWLEDGE_get k) = false.

(** What one inbound update can do to [memory]. *)
Inductive memory_step (t : N) (m : gmap string KnowledgeEntry)
  : gmap string KnowledgeEntry → Prop :=
| memory_same : memory_step t m m
| memory_taught (q a : string) :
    truthy (DEFAULT_KNOWLEDGE_get q) = false →
    memory_step t m (<[q := mkEntry a t 0]> m)
| memory_used (q : string) : memory_step t m (alter bump q m).

(** An insert into the Interaction Log. *)
Definition recordsLog (e : Event) : bool :=
  match e with
  | Issued (InsertLog _ _ _) => true
  | _ => false
  end.

(** From [w] to [w'] the trace only grew, by events that are no insert into
    the log, and the log is the same. *)
Definition quiet (w w' : World) : Prop :=
  ∃ evs, trace w' = (trace w ++ evs)%list ∧
         forallb (λ e, negb (recordsLog e)) evs = true ∧
         logs (db w') = logs (db w).

(** ** Sample sessions *)

(** A store in which a row sits under a key of the built-in table. *)
Definition shadowed : Db :=
  mkDb {[ "who are you" := mkEntry "nobody" 3 4 ]} [].

Definition says (t : string) : Msg := mkMsg 1 42 (Some "bob") (Some t).

(** Inbound updates one after the other, each at its time, every statement
    successful. *)
Fixpoint replay (session : list (string * N)) (d : Db) : Db :=
  match session with
  | [] => d
  | (t, time) :: rest =>
      replay rest (db (snd (processUpdate (says t) (world d time []))))
  end.

(** [foo] taught, then asked once. *)
Definition used_once : Db :=
  replay [("!teach foo | Bar", 1%N); ("foo", 2%N)] emptyDb.

(** ** Further views *)

(** The reply the callback of [handleMessage] sends for what [getAnswer]
    hands it. *)
Definition answerReply (err : option string) (ans : JsVal) : Reply :=
  match err with
  | Some _ => ProcessingError
  | None => if truthy ans then Answer ans else DontKnow
  end.

(** What every row written by the program looks like: the key is a
    normalized, non-empty text without separator that neither the built-in
    table nor the prototype chain knows, the answer a trimmed, non-empty
    text without separator. *)
Definition row_ok (k : string) (e : KnowledgeEntry) : Prop :=
  normalize k = k ∧ k ≠ "" ∧ hasChar "|" k = false ∧
  truthy (DEFAULT_KNOWLEDGE_get k) = false ∧
  trim (answer e) = answer e ∧ answer e ≠ "" ∧ hasChar "|" (answer e) = false.

Definition rows_ok (d : Db) : Prop :=
  ∀ k e, memory d !! k = Some e → row_ok k e.

(** [segments.join(sep)]. *)
Fixpoint join (sep : ascii) (segments : list string) : string :=
  match segments with
  | [] => EmptyString
  | [s] => s
  | s :: rest => s ++ String sep (join sep rest)
  end.

Fixpoint countChar (c : ascii) (s : string) : nat :=
  match s with
  | EmptyString => O
  | String d s' => (if Ascii.eqb d c then 1 else 0) + countChar c s'
  end.

(** The first and the last code unit of a text. *)
Definition firstChar (s : string) : option ascii :=
  match s with
  | EmptyString => None
  | String c _ => Some c
  end.

Fixpoint lastChar (s : string) : option ascii :=
  match s with
  | EmptyString => None
  | String c EmptyString => Some c
  | String _ s' => lastChar s'
  end.

Definition b2n (b : bool) : nat := if b then 1 else 0.

(** What one inbound update does to [memory], exactly: nothing, or the
    row of a well-formed teach is put in place, or the count of a row that
    is there goes up by one. *)
Inductive store_step (t : N) (m : gmap string KnowledgeEntry)
  : gmap string KnowledgeEntry → Prop :=
| store_same : store_step t m m
| store_taught (data q a : string) :
    questionPart data = Some q → answerPart data = Some a →
    q ≠ "" → a ≠ "" →
    truthy (DEFAULT_KNOWLEDGE_get (toLowerCase q)) = false →
    store_step t m (<[normalize q := mkEntry a t 0]> m)
| store_used (k : string) (e : KnowledgeEntry) :
    m !! k = Some e →
    store_step t m (alter bump k m).

(** Two worlds that a handler cannot tell apart as far as the store and the
    replies go: the same rows, the same time, the same outcomes to come and
    the same replies so far. *)
Definition agree (w1 w2 : World) : Prop :=
  memory (db w1) = memory (db w2) ∧ now w1 = now w2 ∧
  faults w1 = faults w2 ∧ sent w1 = sent w2.

(** ** Strings *)

Section Strings.

Lemma is_ws_lower c : is_ws (lower c) = is_ws c.
Proof. destruct c as [[] [] [] [] [] [] [] []]; reflexivity. Qed.

Lemma isEmpty_true s : isEmpty s = true ↔ s = "".
Proof. destruct s; simpl; split; congruence. Qed.

Lemma isEmpty_false s : isEmpty s = false ↔ s ≠ "".
Proof. destruct s; simpl; split; congruence. Qed.

Lemma isEmpty_toLowerCase s : isEmpty (toLowerCase s) = isEmpty s.
Proof. by destruct s. Qed.

Lemma toLowerCase_trimStart s :
  trimStart (toLowerCase s) = toLowerCase (trimStart s).
Proof.
  induction s as [|c s IH]; simpl; [done|].
  rewrite is_ws_lower. by destruct (is_ws c).
Qed.

Lemma toLowerCase_trimEnd s :
  trimEnd (toLowerCase s) = toLowerCase (trimEnd s).
Proof.
  induction s as [|c s IH]; simpl; [done|].
  rewrite is_ws_lower, IH, isEmpty_toLowerCase.
  by destruct (is_ws c && isEmpty (trimEnd s)).
Qed.

Lemma toLowerCase_trim s : trim (toLowerCase s) = toLowerCase (trim s).
Proof. unfold trim. by rewrite toLowerCase_trimStart, toLowerCase_trimEnd. Qed.

Lemma trimStart_idem s : trimStart (trimStart s) = trimStart s.
Proof.
  induction s as [|c s IH]; simpl; [done|].
  destruct (is_ws c) eqn:E; [done|]. simpl. by rewrite E.
Qed.

Lemma trimEnd_idem s : trimEnd (trimEnd s) = trimEnd s.
Proof.
  induction s as [|c s IH]; simpl; [done|].
  destruct (is_ws c && isEmpty (trimEnd s)) eqn:E; [done|].
  simpl. by rewrite IH, E.
Qed.

Lemma trimStart_trimEnd s : trimStart (trimEnd s) = trimEnd (trimStart s).
Proof.
  induction s as [|c s IH]; simpl; [done|].
  destruct (is_ws c) eqn:Ec; simpl.
  - destruct (isEmpty (trimEnd s)) eqn:Ee; simpl.
    + apply isEmpty_true in Ee. rewrite <- IH, Ee. done.
    + by rewrite Ec.
  - by rewrite Ec.
Qed.

Lemma trim_idem s : trim (trim s) = trim s.
Proof.
  unfold trim.
  by rewrite trimStart_trimEnd, trimStart_idem, trimEnd_idem.
Qed.

(** The key [teachQuestion] writes for an already trimmed question is its
    lower-casing, which is the key the guard of [teach] looks up. *)
Lemma normalize_trim s : normalize (trim s) = toLowerCase (trim s).
Proof. unfold normalize. by rewrite toLowerCase_trim, trim_idem. Qed.

Lemma lower_idem c : lower (lower c) = lower c.
Proof. destruct c as [[] [] [] [] [] [] [] []]; reflexivity. Qed.

Lemma toLowerCase_idem s : toLowerCase (toLowerCase s) = toLowerCase s.
Proof. induction s as [|c s IH]; simpl; [done|]. by rewrite lower_idem, IH. Qed.

Lemma normalize_idem s : normalize (normalize s) = normalize s.
Proof.
  unfold normalize.
  by rewrite !toLowerCase_trim, toLowerCase_idem, trim_idem.
Qed.

Lemma trimEnd_empty s : trimEnd s = "" ↔ allWs s = true.
Proof.
  induction s as [|c s IH]; simpl; [done|].
  destruct (is_ws c); simpl.
  - destruct (isEmpty (trimEnd s)) eqn:E.
    + apply isEmpty_true in E. split; [intros _; by apply IH | done].
    + apply isEmpty_false in E. split; [done|]. intros H. by apply IH in H.
  - split; done.
Qed.

Lemma allWs_trimStart s : allWs (trimStart s) = allWs s.
Proof.
  induction s as [|c s IH]; simpl; [done|].
  destruct (is_ws c) eqn:E; simpl; [done|]. by rewrite E.
Qed.

Lemma trim_empty s : trim s = "" ↔ allWs s = true.
Proof. unfold trim. by rewrite trimEnd_empty, allWs_trimStart. Qed.

Lemma allWs_hasChar s : allWs s = true → hasChar "|" s = false.
Proof.
  induction s as [|c s IH]; simpl; [done|].
  intros [Hc Hs]%andb_prop. rewrite (IH Hs), orb_false_r.
  destruct (Ascii.eqb_spec c "|") as [->|]; [done|done].
Qed.

Lemma beforeFirst_no_sep sep s :
  hasChar sep s = false → beforeFirst sep s = s.
Proof.
  induction s as [|c s IH]; simpl; [done|].
  intros [Hc Hs]%orb_false_elim. rewrite Hc. by rewrite IH.
Qed.

Lemma afterFirst_none sep s :
  afterFirst sep s = None ↔ hasChar sep s = false.
Proof.
  induction s as [|c s IH]; simpl; [done|].
  destruct (Ascii.eqb c sep); simpl; [split; done | done].
Qed.

Lemma split_unfold sep s :
  split sep s =
    beforeFirst sep s ::
      match afterFirst sep s with
      | Some r => split sep r
      | None => []
      end.
Proof.
  induction s as [|c s IH]; simpl; [done|].
  destruct (Ascii.eqb c sep); [done|]. by rewrite IH.
Qed.

Lemma questionPart_spec data : questionPart data = Some (spec_question data).
Proof. unfold questionPart. by rewrite split_unfold. Qed.

Lemma answerPart_spec data :
  answerPart data = (λ r, trim (beforeFirst "|" r)) <$> afterFirst "|" data.
Proof.
  unfold answerPart. rewrite split_unfold.
  destruct (afterFirst "|" data) as [r|]; simpl; [|done].
  by rewrite split_unfold.
Qed.

Lemma questionPart_trimmed data q : questionPart data = Some q → trim q = q.
Proof. rewrite questionPart_spec. intros [= <-]. apply trim_idem. Qed.

Lemma answerPart_trimmed data a : answerPart data = Some a → trim a = a.
Proof.
  rewrite answerPart_spec.
  destruct (afterFirst "|" data); simpl; intros [= <-]. apply trim_idem.
Qed.

End Strings.

(** ** The built-in table and the prototype chain *)

Ltac assoc_cases H :=
  cbn [assoc] in H;
  repeat match type of H with
         | context [String.eqb ?k ?l] =>
             destruct (String.eqb_spec k l) as [->|?]
         end.

Section Builtin.

Lemma isBuiltinKey_true k :
  isBuiltinKey k = true ↔ ∃ a, assoc k DEFAULT_KNOWLEDGE = Some a.
Proof. unfold isBuiltinKey. by rewrite bool_decide_eq_true. Qed.

Lemma isBuiltinKey_false k :
  isBuiltinKey k = false ↔ assoc k DEFAULT_KNOWLEDGE = None.
Proof.
  unfold isBuiltinKey. rewrite bool_decide_eq_false.
  by rewrite <- eq_None_not_Some.
Qed.

Lemma builtin_get k a :
  assoc k DEFAULT_KNOWLEDGE = Some a →
  DEFAULT_KNOWLEDGE_get k = VString a ∧ a ≠ "".
Proof.
  intros H. split.
  - unfold DEFAULT_KNOWLEDGE_get. by rewrite H.
  - unfold DEFAULT_KNOWLEDGE in H. assoc_cases H;
      try (injection H as <-; discriminate). discriminate.
Qed.

Lemma builtin_truthy k :
  isBuiltinKey k = true → truthy (DEFAULT_KNOWLEDGE_get k) = true.
Proof.
  intros [a Ha]%isBuiltinKey_true.
  destruct (builtin_get k a Ha) as [-> Hne]. simpl.
  by destruct a.
Qed.

Lemma prototype_get p v :
  assoc p Object_prototype = Some v →
  DEFAULT_KNOWLEDGE_get p = v ∧ truthy v = true ∧
  (∀ s, v ≠ VString s) ∧ v ≠ VNull ∧ v ≠ VUndefined ∧
  isBuiltinKey p = false.
Proof.
  intros H. unfold Object_prototype in H. assoc_cases H;
    try (injection H as <-; repeat split; (reflexivity || congruence)).
  discriminate.
Qed.

(** What passes the guard [if (DEFAULT_KNOWLEDGE[key])]: a key of the table
    or a name on the prototype chain. *)
Lemma guard_closed k :
  truthy (DEFAULT_KNOWLEDGE_get k) = false ↔
  isBuiltinKey k = false ∧ assoc k Object_prototype = None.
Proof.
  split.
  - intros H. split.
    + destruct (isBuiltinKey k) eqn:E; [|done].
      apply builtin_truthy in E. congruence.
    + destruct (assoc k Object_prototype) as [v|] eqn:E; [|done].
      destruct (prototype_get k v E) as (Hg & Ht & _). congruence.
  - intros [H1%isBuiltinKey_false H2].
    unfold DEFAULT_KNOWLEDGE_get. by rewrite H1, H2.
Qed.

(** After lower-casing, two names of the prototype chain are left. *)
Lemma prototype_lower p v :
  assoc p Object_prototype = Some v → toLowerCase p = p →
  p = "constructor" ∨ p = "__proto__".
Proof.
  intros H Hl. unfold Object_prototype in H.
  assoc_cases H; try discriminate Hl; auto. discriminate H.
Qed.

Lemma normalize_lower s : toLowerCase (normalize s) = normalize s.
Proof. unfold normalize. by rewrite toLowerCase_trim, toLowerCase_idem. Qed.

End Builtin.

(** ** The teacher, case by case *)

Ltac run_M :=
  unfold mbind, M_bind, mret, M_ret, issue, getDb, putDb, clock,
    logger_error, sendMessage, emit; cbn [fst snd db now faults trace].

Section Teach.

Variables (chat : Z) (data : string) (w : World).

Lemma teach_invalid :
  falsy (questionPart data) || falsy (answerPart data) = true →
  teach chat data w =
    (tt, mkWorld (db w) (now w) (faults w)
                 (trace w ++ [Sent chat InvalidFormat])).
Proof.
  unfold questionPart, answerPart, teach. intros ->. reflexivity.
Qed.

Section Parsed.

Variables (q a : string).
Hypothesis Hq : questionPart data = Some q.
Hypothesis Ha : answerPart data = Some a.
Hypothesis Hqne : q ≠ "".
Hypothesis Hane : a ≠ "".

Lemma teach_parsed_check :
  falsy (questionPart data) || falsy (answerPart data) = false.
Proof using Hq Ha Hqne Hane.
  rewrite Hq, Ha. simpl.
  apply isEmpty_false in Hqne, Hane. by rewrite Hqne, Hane.
Qed.

Lemma teach_conflict :
  truthy (DEFAULT_KNOWLEDGE_get (toLowerCase q)) = true →
  teach chat data w =
    (tt, mkWorld (db w) (now w) (faults w)
                 (trace w ++ [Sent chat BuiltinConflict])).
Proof using Hq Ha Hqne Hane.
  intros Hg. pose proof teach_parsed_check as Hc.
  unfold questionPart, answerPart in *. unfold teach.
  rewrite Hc, Hq, Ha, Hg. reflexivity.
Qed.

Lemma teach_key : trim (toLowerCase q) = normalize q ∧ trim a = a.
Proof using Hq Ha.
  split; [done|]. by eapply answerPart_trimmed.
Qed.

Lemma teach_learns :
  truthy (DEFAULT_KNOWLEDGE_get (toLowerCase q)) = false →
  outcome 0 w = None →
  teach chat data w =
    (tt, mkWorld (mkDb (<[normalize q := mkEntry a (now w) 0]>
                          (memory (db w)))
                       (logs (db w)))
                 (now w) (tail (faults w))
                 (trace w ++ [Issued (InsertOrReplaceMemory (normalize q) a);
                              Sent chat (Learned q a)])).
Proof using Hq Ha Hqne Hane.
  intros Hg Ho. pose proof teach_parsed_check as Hc.
  destruct teach_key as [_ Hta].
  unfold questionPart, answerPart in *. unfold teach.
  rewrite Hc, Hq, Ha, Hg.
  unfold teachQuestion, db_insert_or_replace. fold (normalize q).
  rewrite Hta. run_M. rewrite Ho. run_M.
  rewrite insert_delete_eq, <- app_assoc. reflexivity.
Qed.

Lemma teach_save_failed m :
  truthy (DEFAULT_KNOWLEDGE_get (toLowerCase q)) = false →
  outcome 0 w = Some m →
  teach chat data w =
    (tt, mkWorld (db w) (now w) (tail (faults w))
                 (trace w ++ [Issued (InsertOrReplaceMemory (normalize q) a);
                              Logged ("Error teaching question: " ++ m);
                              Sent chat SaveFailed])).
Proof using Hq Ha Hqne Hane.
  intros Hg Ho. pose proof teach_parsed_check as Hc.
  destruct teach_key as [_ Hta].
  unfold questionPart, answerPart in *. unfold teach.
  rewrite Hc, Hq, Ha, Hg.
  unfold teachQuestion, db_insert_or_replace. fold (normalize q).
  rewrite Hta. run_M. rewrite Ho. run_M.
  rewrite <- !app_assoc. reflexivity.
Qed.

End Parsed.

End Teach.

Section TeachInversion.

Lemma sent_trace d t fs tr evs :
  sent (mkWorld d t fs (tr ++ evs)) =
    (sent (mkWorld d t fs tr) ++ sent (mkWorld d t fs evs))%list.
Proof. unfold sent. cbn [trace]. apply omap_app. Qed.

Lemma issued_trace d t fs tr evs :
  issued (mkWorld d t fs (tr ++ evs)) =
    (issued (mkWorld d t fs tr) ++ issued (mkWorld d t fs evs))%list.
Proof. unfold issued. cbn [trace]. apply omap_app. Qed.

Lemma sent_world w d t fs : sent (mkWorld d t fs (trace w)) = sent w.
Proof. done. Qed.

Lemma issued_world w d t fs : issued (mkWorld d t fs (trace w)) = issued w.
Proof. done. Qed.

Lemma falsy_false v : falsy v = false → ∃ s, v = Some s ∧ s ≠ "".
Proof.
  destruct v as [s|]; simpl; [|done].
  intros H%isEmpty_false. eauto.
Qed.

(** A [Learned] reply comes from one path only: both parts non-empty, the
    guard closed, the statement successful. *)
Lemma learned_inv chat data q a w :
  learned chat data q a w →
  questionPart data = Some q ∧ answerPart data = Some a ∧
  q ≠ "" ∧ a ≠ "" ∧
  truthy (DEFAULT_KNOWLEDGE_get (toLowerCase q)) = false ∧
  outcome 0 w = None.
Proof.
  unfold learned. intros H.
  destruct (falsy (questionPart data) || falsy (answerPart data)) eqn:Hc.
  - rewrite teach_invalid in H by done. cbn [snd] in H.
    rewrite sent_trace, sent_world in H.
    apply app_inv_head in H. discriminate.
  - apply orb_false_elim in Hc as [Hfq Hfa].
    apply falsy_false in Hfq as (q' & Hq & Hqne).
    apply falsy_false in Hfa as (a' & Ha & Hane).
    destruct (truthy (DEFAULT_KNOWLEDGE_get (toLowerCase q'))) eqn:Hg.
    + rewrite (teach_conflict chat data w q' a') in H by done.
      cbn [snd] in H. rewrite sent_trace, sent_world in H.
      apply app_inv_head in H. discriminate.
    + destruct (outcome 0 w) as [m|] eqn:Ho.
      * rewrite (teach_save_failed chat data w q' a' Hq Ha Hqne Hane m)
          in H by done.
        cbn [snd] in H. rewrite sent_trace, sent_world in H.
        apply app_inv_head in H. discriminate.
      * rewrite (teach_learns chat data w q' a') in H by done.
        cbn [snd] in H. rewrite sent_trace, sent_world in H.
        apply app_inv_head in H. injection H as <- <-. done.
Qed.

End TeachInversion.

(** ** The resolver, case by case *)

Section Resolve.

Variables (rawText : string) (w : World).

Let k := normalize rawText.

Lemma outcome_tail d t tr d' t' tr' fs :
  outcome 0 (mkWorld d t (tail fs) tr) = outcome 1 (mkWorld d' t' fs tr').
Proof. unfold outcome. cbn [faults]. by destruct fs. Qed.

Lemma resolve_guard_open :
  truthy (DEFAULT_KNOWLEDGE_get k) = true →
  resolve rawText w = ((None, DEFAULT_KNOWLEDGE_get k), w).
Proof.
  intros Hg. unfold resolve, getAnswer. fold (normalize rawText). fold k.
  by rewrite Hg.
Qed.

Section GuardClosed.

Hypothesis Hg : truthy (DEFAULT_KNOWLEDGE_get k) = false.

Lemma resolve_read_failed m :
  outcome 0 w = Some m →
  resolve rawText w =
    ((Some m, VUndefined),
     mkWorld (db w) (now w) (tail (faults w))
             (trace w ++ [Issued (SelectAnswer k);
                          Logged ("Error fetching answer: " ++ m)])).
Proof using Hg.
  intros Ho. unfold resolve, getAnswer. fold (normalize rawText). fold k.
  rewrite Hg. unfold db_select_answer. run_M. rewrite Ho. run_M.
  by rewrite <- app_assoc.
Qed.

Lemma resolve_miss :
  outcome 0 w = None →
  memory (db w) !! k = None →
  resolve rawText w =
    ((None, VNull),
     mkWorld (db w) (now w) (tail (faults w))
             (trace w ++ [Issued (SelectAnswer k)])).
Proof using Hg.
  intros Ho Hm. unfold resolve, getAnswer. fold (normalize rawText). fold k.
  rewrite Hg. unfold db_select_answer. run_M. rewrite Ho. run_M.
  by rewrite Hm.
Qed.

Lemma resolve_hit e :
  outcome 0 w = None →
  memory (db w) !! k = Some e →
  resolve rawText w =
    ((None, VString (answer e)),
     match outcome 1 w with
     | None =>
         mkWorld (mkDb (alter bump k (memory (db w))) (logs (db w)))
                 (now w) (tail (tail (faults w)))
                 (trace w ++ [Issued (SelectAnswer k);
                              Issued (UpdateUsage k)])
     | Some m =>
         mkWorld (db w) (now w) (tail (tail (faults w)))
                 (trace w ++ [Issued (SelectAnswer k);
                              Issued (UpdateUsage k);
                              Logged ("Error updating usage count: " ++ m)])
     end).
Proof using Hg.
  intros Ho Hm. unfold resolve, getAnswer. fold (normalize rawText). fold k.
  rewrite Hg. unfold db_select_answer, db_update_usage.
  run_M. rewrite Ho. run_M. rewrite Hm. cbn [fmap option_fmap option_map].
  rewrite (outcome_tail _ _ _ (db w) (now w) (trace w)).
  destruct w as [d t fs tr]. cbn [db now faults trace].
  destruct (outcome 1 _) as [m|]; run_M; by rewrite <- !app_assoc.
Qed.

End GuardClosed.

End Resolve.

(** ** What an inbound update does to the tables *)

Section Frames.

Lemma getAnswer_resolve {A : Type} q (cb : option string → JsVal → M A) w :
  getAnswer q cb w =
    cb (fst (fst (resolve q w))) (snd (fst (resolve q w))) (snd (resolve q w)).
Proof.
  unfold resolve, getAnswer.
  destruct (truthy _); [done|].
  unfold db_select_answer, db_update_usage. run_M.
  destruct (outcome 0 w); run_M; [done|].
  destruct (memory (db w) !! _); cbn [fmap option_fmap option_map]; [|done].
  destruct (outcome 0 _); run_M; done.
Qed.

Lemma resolve_memory rawText w :
  memory_step (now w) (memory (db w)) (memory (db (snd (resolve rawText w))))
  ∧ logs (db (snd (resolve rawText w))) = logs (db w)
  ∧ now (snd (resolve rawText w)) = now w.
Proof.
  destruct (truthy (DEFAULT_KNOWLEDGE_get (normalize rawText))) eqn:Hg.
  { rewrite resolve_guard_open by done. repeat split. constructor. }
  destruct (outcome 0 w) as [m|] eqn:Ho.
  { rewrite (resolve_read_failed _ _ Hg m) by done. repeat split. constructor. }
  destruct (memory (db w) !! normalize rawText) as [e|] eqn:Hm.
  - rewrite (resolve_hit _ _ Hg e) by done.
    destruct (outcome 1 w); repeat split; constructor.
  - rewrite resolve_miss by done. repeat split. constructor.
Qed.

Lemma teach_memory chat data w :
  memory_step (now w) (memory (db w)) (memory (db (snd (teach chat data w))))
  ∧ logs (db (snd (teach chat data w))) = logs (db w)
  ∧ now (snd (teach chat data w)) = now w.
Proof.
  destruct (falsy (questionPart data) || falsy (answerPart data)) eqn:Hc.
  { rewrite teach_invalid by done. repeat split. constructor. }
  apply orb_false_elim in Hc as [Hfq Hfa].
  apply falsy_false in Hfq as (q & Hq & Hqne).
  apply falsy_false in Hfa as (a & Ha & Hane).
  destruct (truthy (DEFAULT_KNOWLEDGE_get (toLowerCase q))) eqn:Hg.
  { rewrite (teach_conflict chat data w q a) by done.
    repeat split. constructor. }
  destruct (outcome 0 w) as [m|] eqn:Ho.
  { rewrite (teach_save_failed chat data w q a Hq Ha Hqne Hane m) by done.
    repeat split. constructor. }
  rewrite (teach_learns chat data w q a) by done.
  repeat split. cbn [snd db memory]. constructor.
  rewrite <- (questionPart_trimmed data q Hq), normalize_trim.
  by rewrite (questionPart_trimmed data q Hq).
Qed.

Lemma saveLog_effect uid uname message w :
  saveLog uid uname message w =
    (tt, match outcome 0 w with
         | None =>
             mkWorld (mkDb (memory (db w))
                           (logs (db w) ++ [mkLog uid uname message (now w)]))
                     (now w) (tail (faults w))
                     (trace w ++ [Issued (InsertLog uid uname message)])
         | Some m =>
             mkWorld (db w) (now w) (tail (faults w))
                     (trace w ++ [Issued (InsertLog uid uname message);
                                  Logged ("Error saving log: " ++ m)])
         end).
Proof.
  unfold saveLog, db_insert_log. run_M.
  destruct (outcome 0 w); run_M; [|done]. by rewrite <- app_assoc.
Qed.

Lemma handleStats_db msg w : db (snd (handleStats msg w)) = db w.
Proof.
  unfold handleStats, db_count_memory, db_count_logs, db_top_questions.
  run_M.
  destruct (outcome 0 w); run_M; [done|].
  destruct (outcome 0 _); run_M; [done|].
  destruct (outcome 0 _); run_M; done.
Qed.

Lemma handleMessage_memory msg w :
  memory_step (now w) (memory (db w)) (memory (db (snd (handleMessage msg w)))).
Proof.
  unfold handleMessage.
  destruct (falsy (text msg)); [constructor|].
  unfold mbind at 1. unfold M_bind. rewrite saveLog_effect.
  set (w1 := match outcome 0 w with None => _ | Some _ => _ end).
  assert (memory (db w1) = memory (db w) ∧ now w1 = now w) as [Hm Hn].
  { subst w1. by destruct (outcome 0 w). }
  rewrite <- Hm, <- Hn.
  destruct (startsWith _ _).
  - apply teach_memory.
  - rewrite getAnswer_resolve.
    destruct (resolve_memory (trim (orElse (text msg) "")) w1) as (Hs & _).
    destruct (fst (fst (resolve _ w1))); [exact Hs|].
    destruct (truthy _); exact Hs.
Qed.

Lemma processUpdate_memory msg w :
  memory_step (now w) (memory (db w)) (memory (db (snd (processUpdate msg w)))).
Proof.
  unfold processUpdate, onText, onMessage, handleHelp.
  unfold mbind, M_bind.
  set (m1 := if negb (falsy (text msg)) &&
                negb (startsWith (orElse (text msg) "") "/")
             then handleMessage msg else mret tt).
  assert (memory_step (now w) (memory (db w)) (memory (db (snd (m1 w)))))
    as H1.
  { subst m1. destruct (_ && _); [apply handleMessage_memory | constructor]. }
  destruct (m1 w) as [[] w1]. cbn [snd] in H1.
  destruct (text msg) as [t|]; [|exact H1].
  set (m2 := if includes t "/help"
             then sendMessage (chat_id msg) HelpText else mret tt).
  assert (db (snd (m2 w1)) = db w1) as Hh.
  { subst m2. by destruct (includes t "/help"). }
  destruct (m2 w1) as [[] w2]. cbn [snd] in Hh.
  destruct (includes t "/stats").
  - rewrite handleStats_db, Hh. exact H1.
  - cbn [mret M_ret snd]. rewrite Hh. exact H1.
Qed.

Lemma memory_step_ok t d m' :
  store_ok d → memory_step t (memory d) m' → ∀ l, store_ok (mkDb m' l).
Proof.
  intros Hok Hs l k e. cbn [memory].
  destruct Hs as [|q a Hg|q].
  - apply Hok.
  - destruct (decide (q = k)) as [->|Hne]; [done|].
    rewrite lookup_insert_ne by done. apply Hok.
  - rewrite lookup_alter. case_decide as Hd.
    + subst. destruct (memory d !! k) eqn:E; [|done]. intros _. eapply Hok, E.
    + apply Hok.
Qed.

Theorem reachable_store_ok d : reachable d → store_ok d.
Proof.
  induction 1 as [|d msg t fs Hr IH].
  - intros k e. unfold emptyDb. cbn [memory]. by rewrite lookup_empty.
  - pose proof (processUpdate_memory msg (world d t fs)) as Hs.
    cbn [world db now] in Hs.
    intros k e.
    apply (memory_step_ok t d _ IH Hs
             (logs (db (snd (processUpdate msg (world d t fs)))))).
Qed.

End Frames.

(** ** Built-in precedence *)

(** C3. When the normalized text is a key of the built-in table, the resolver
    hands back the built-in answer and nothing else happens: the world after
    the call is the world before it, so no statement was issued against the
    Knowledge Store and every usage count is what it was. *)
Theorem resolve_builtin_first rawText w :
  isBuiltinKey (normalize rawText) = true →
  ∃ a, assoc (normalize rawText) DEFAULT_KNOWLEDGE = Some a ∧
       resolve rawText w = ((None, VString a), w) ∧
       issued (snd (resolve rawText w)) = issued w ∧
       ∀ k, usage_count <$> memory (db (snd (resolve rawText w))) !! k =
            usage_count <$> memory (db w) !! k.
Proof.
  intros Hb. pose proof (builtin_truthy _ Hb) as Hg.
  apply isBuiltinKey_true in Hb as [a Ha]. exists a.
  destruct (builtin_get _ _ Ha) as [Hget _].
  rewrite resolve_guard_open by done. rewrite Hget. done.
Qed.

Lemma resolve_builtin_first_witness :
  isBuiltinKey (normalize "  Who are YOU ") = true ∧
  ∃ a, assoc (normalize "  Who are YOU ") DEFAULT_KNOWLEDGE = Some a ∧
       resolve "  Who are YOU " (world shadowed 9 []) =
         ((None, VString a), world shadowed 9 []) ∧
       issued (snd (resolve "  Who are YOU " (world shadowed 9 []))) =
         issued (world shadowed 9 []) ∧
       ∀ k, usage_count <$>
              memory (db (snd (resolve "  Who are YOU " (world shadowed 9 []))))
                !! k =
            usage_count <$> memory (db (world shadowed 9 [])) !! k.
Proof.
  split; [reflexivity|].
  apply (resolve_builtin_first "  Who are YOU " (world shadowed 9 [])).
  reflexivity.
Defined.

(** C10, as the code has it.  The guard is a truthiness test of a property
    read, and the read walks the prototype chain.  The normalized text is
    lower-cased, so of the property names of [Object.prototype] it can only
    be [constructor] or [__proto__].  When it is, it is no key of the
    table, yet the resolver hands back the inherited value, which is no
    string and not the [null] of a miss, without looking at the store; and
    a teach whose question normalizes to that name and whose answer is not
    empty is turned down as built-in knowledge. *)
Theorem prototype_name_taken_for_builtin rawText v :
  assoc (normalize rawText) Object_prototype = Some v →
  (normalize rawText = "constructor" ∨ normalize rawText = "__proto__") ∧
  isBuiltinKey (normalize rawText) = false ∧
  (∀ s, v ≠ VString s) ∧ v ≠ VNull ∧
  (∀ w, resolve rawText w = ((None, v), w)) ∧
  (∀ chat data q a w,
     questionPart data = Some q → answerPart data = Some a → a ≠ "" →
     normalize q = normalize rawText →
     teach chat data w =
       (tt, mkWorld (db w) (now w) (faults w)
                    (trace w ++ [Sent chat BuiltinConflict]))).
Proof.
  intros Hp.
  destruct (prototype_get _ _ Hp) as (Hget & Ht & Hs & Hn & _ & Hb).
  split; [exact (prototype_lower _ _ Hp (normalize_lower rawText))|].
  repeat split; try done.
  - intros w. rewrite resolve_guard_open by (by rewrite Hget). by rewrite Hget.
  - intros chat data q a w Hq Ha Hane Hk.
    assert (toLowerCase q = normalize rawText) as Hl.
    { rewrite <- Hk, <- (questionPart_trimmed data q Hq).
      symmetry. apply normalize_trim. }
    apply (teach_conflict chat data w q a); try done.
    + intros ->. rewrite <- Hk in Hp. discriminate.
    + by rewrite Hl, Hget.
Qed.

Lemma prototype_name_taken_for_builtin_witness :
  assoc (normalize " Constructor ") Object_prototype = Some (VFunction "Object") ∧
  resolve " Constructor " (world emptyDb 0 []) =
    ((None, VFunction "Object"), world emptyDb 0 []) ∧
  teach 1 "constructor | a builder" (world emptyDb 0 []) =
    (tt, mkWorld emptyDb 0 [] [Sent 1 BuiltinConflict]).
Proof.
  pose proof (prototype_name_taken_for_builtin " Constructor "
                (VFunction "Object") eq_refl) as (_ & _ & _ & _ & Hr & Ht).
  split; [reflexivity|]. split; [apply Hr|].
  apply (Ht 1%Z "constructor | a builder" "constructor" "a builder"
            (world emptyDb 0 [])); [reflexivity | reflexivity | discriminate
                                   | reflexivity].
Defined.

(** C10 as it is worded fails on the names it gives with a capital in them:
    [valueOf] and [hasOwnProperty] are on the prototype chain, but what is
    looked up is their lower-casing, which is not.  Asked, they are an
    ordinary miss; taught, they are learned. *)
Lemma capital_prototype_names_are_ordinary :
  assoc "valueOf" Object_prototype = Some (VFunction "valueOf") ∧
  normalize "valueOf" = "valueof" ∧
  fst (resolve "valueOf" (world emptyDb 0 [])) = (None, VNull) ∧
  fst (resolve "hasOwnProperty" (world emptyDb 0 [])) = (None, VNull) ∧
  sent (snd (teach 1 "valueOf | x" (world emptyDb 0 []))) =
    [(1%Z, Learned "valueOf" "x")] ∧
  sent (snd (teach 1 "constructor |" (world emptyDb 0 []))) =
    [(1%Z, InvalidFormat)].
Proof. repeat split; reflexivity. Qed.

(** ** Format and conflict rejections *)

(** C5. A teach input whose question part is empty after trimming, or that
    has no [|] at all, or whose answer part is empty after trimming (be it
    everything after the first [|] or the text up to the second one), is
    answered [InvalidFormat]; no statement is issued and the database is
    the one before the call. *)
Theorem teach_rejects_empty_part chat data w :
  spec_question data = "" ∨ afterFirst "|" data = None ∨
  spec_answer data = Some "" ∨ answerPart data = Some "" →
  teach chat data w =
    (tt, mkWorld (db w) (now w) (faults w)
                 (trace w ++ [Sent chat InvalidFormat])) ∧
  db (snd (teach chat data w)) = db w ∧
  issued (snd (teach chat data w)) = issued w.
Proof.
  intros H.
  assert (falsy (questionPart data) || falsy (answerPart data) = true) as Hc.
  { rewrite questionPart_spec, answerPart_spec. cbn [falsy].
    destruct H as [-> | [-> | [H | H]]]; [done | apply orb_true_r | |].
    - unfold spec_answer in H.
      destruct (afterFirst "|" data) as [r|]; [|apply orb_true_r].
      cbn in H. injection H as H. apply trim_empty in H.
      cbn. rewrite (beforeFirst_no_sep "|" r) by by apply allWs_hasChar.
      apply trim_empty in H. rewrite H. apply orb_true_r.
    - rewrite answerPart_spec in H. rewrite H. apply orb_true_r. }
  rewrite teach_invalid by done. cbn [snd db].
  repeat split. rewrite issued_trace, issued_world. cbn. apply app_nil_r.
Qed.

Lemma teach_rejects_empty_part_witness :
  (spec_question "onlyquestion" = "" ∨ afterFirst "|" "onlyquestion" = None ∨
   spec_answer "onlyquestion" = Some "" ∨ answerPart "onlyquestion" = Some "") ∧
  teach 1 "onlyquestion" (world emptyDb 0 []) =
    (tt, mkWorld emptyDb 0 [] [Sent 1 InvalidFormat]).
Proof.
  assert (spec_question "onlyquestion" = "" ∨
          afterFirst "|" "onlyquestion" = None ∨
          spec_answer "onlyquestion" = Some "" ∨
          answerPart "onlyquestion" = Some "") as H
    by (right; left; reflexivity).
  split; [exact H|].
  exact (proj1 (teach_rejects_empty_part 1 "onlyquestion" (world emptyDb 0 []) H)).
Defined.

(** C6, as the code has it.  The format check comes before the conflict
    check: when the question normalizes to a key of the built-in table and
    the answer (the text between the first and the second [|]) is not
    empty after trimming, the teach is answered [BuiltinConflict], no
    statement is issued and the database is the one before the call. *)
Theorem teach_rejects_builtin_question chat data a w :
  isBuiltinKey (normalize (spec_question data)) = true →
  answerPart data = Some a → a ≠ "" →
  teach chat data w =
    (tt, mkWorld (db w) (now w) (faults w)
                 (trace w ++ [Sent chat BuiltinConflict])) ∧
  db (snd (teach chat data w)) = db w ∧
  issued (snd (teach chat data w)) = issued w.
Proof.
  intros Hb Ha Hane.
  assert (teach chat data w =
            (tt, mkWorld (db w) (now w) (faults w)
                         (trace w ++ [Sent chat BuiltinConflict]))) as E.
  { apply (teach_conflict chat data w (spec_question data) a);
      [apply questionPart_spec | done | | done |].
    - intros E. rewrite E in Hb. discriminate.
    - unfold spec_question in *. rewrite <- normalize_trim.
      by apply builtin_truthy. }
  rewrite E. cbn [snd db]. repeat split.
  rewrite issued_trace, issued_world. cbn. apply app_nil_r.
Qed.

Lemma teach_rejects_builtin_question_witness :
  isBuiltinKey (normalize (spec_question "who are you | override")) = true ∧
  teach 1 "who are you | override" (world shadowed 0 []) =
    (tt, mkWorld shadowed 0 [] [Sent 1 BuiltinConflict]).
Proof.
  split; [reflexivity|].
  exact (proj1 (teach_rejects_builtin_question 1 "who are you | override"
                  "override" (world shadowed 0 []) eq_refl eq_refl
                  ltac:(discriminate))).
Defined.

(** C6 as it is worded fails: with an empty answer the question is never
    compared with the table, and the reply is [InvalidFormat]. *)
Lemma builtin_question_empty_answer :
  isBuiltinKey (normalize (spec_question "hello |")) = true ∧
  teach 1 "hello |" (world emptyDb 0 []) =
    (tt, mkWorld emptyDb 0 [] [Sent 1 InvalidFormat]) ∧
  sent (snd (teach 1 "hello |" (world emptyDb 0 []))) ≠ [(1%Z, BuiltinConflict)].
Proof. split; [reflexivity|]. split; [reflexivity|]. discriminate. Qed.

(** ** Teaching *)

Section Learned.

Variables (chat : Z) (data q a : string) (w : World).
Hypothesis Hl : learned chat data q a w.

Lemma learned_teach :
  teach chat data w =
    (tt, mkWorld (mkDb (<[normalize q := mkEntry a (now w) 0]>
                          (memory (db w)))
                       (logs (db w)))
                 (now w) (tail (faults w))
                 (trace w ++ [Issued (InsertOrReplaceMemory (normalize q) a);
                              Sent chat (Learned q a)])).
Proof using Hl.
  destruct (learned_inv _ _ _ _ _ Hl) as (Hq & Ha & Hqne & Hane & Hg & Ho).
  by apply teach_learns.
Qed.

Lemma learned_key : normalize q = toLowerCase q ∧ trim q = q ∧ trim a = a.
Proof using Hl.
  destruct (learned_inv _ _ _ _ _ Hl) as (Hq & Ha & _).
  pose proof (questionPart_trimmed _ _ Hq) as Htq.
  split; [|split; [done | by eapply answerPart_trimmed]].
  rewrite <- Htq at 1. rewrite normalize_trim. by rewrite Htq.
Qed.

Lemma learned_guard : truthy (DEFAULT_KNOWLEDGE_get (normalize q)) = false.
Proof using Hl.
  destruct learned_key as [-> _].
  by destruct (learned_inv _ _ _ _ _ Hl) as (_ & _ & _ & _ & Hg & _).
Qed.

End Learned.

(** C2, as the code has it.  The input is split on every [|] and the first
    two segments are kept: the question is the trimmed text before the first
    [|], the answer is the trimmed text between the first [|] and the second
    (everything after the first when there is no second), and what follows
    a second [|] is dropped.  The row a successful teach writes holds that
    answer. *)
Theorem teach_keeps_first_two_segments chat data r w :
  afterFirst "|" data = Some r →
  questionPart data = Some (trim (beforeFirst "|" data)) ∧
  answerPart data = Some (trim (beforeFirst "|" r)) ∧
  (afterFirst "|" r = None → answerPart data = spec_answer data) ∧
  (∀ q a, learned chat data q a w →
          q = trim (beforeFirst "|" data) ∧ a = trim (beforeFirst "|" r) ∧
          memory (db (snd (teach chat data w))) !! normalize q =
            Some (mkEntry a (now w) 0)).
Proof.
  intros Hr.
  assert (answerPart data = Some (trim (beforeFirst "|" r))) as Ha
    by (by rewrite answerPart_spec, Hr).
  split; [apply questionPart_spec|]. split; [exact Ha|]. split.
  - intros Hn%afterFirst_none. rewrite Ha. unfold spec_answer. rewrite Hr.
    cbn. by rewrite beforeFirst_no_sep.
  - intros q a Hl.
    destruct (learned_inv _ _ _ _ _ Hl) as (Hq & Ha' & _).
    rewrite questionPart_spec in Hq. injection Hq as <-.
    rewrite Ha in Ha'. injection Ha' as <-.
    split; [done|]. split; [done|].
    rewrite (learned_teach _ _ _ _ _ Hl). cbn [snd db memory].
    apply lookup_insert_eq.
Qed.

Lemma teach_keeps_first_two_segments_witness :
  afterFirst "|" "a | b | c" = Some " b | c" ∧
  questionPart "a | b | c" = Some "a" ∧ answerPart "a | b | c" = Some "b".
Proof.
  split; [reflexivity|].
  pose proof (teach_keeps_first_two_segments 1 "a | b | c" " b | c"
                (world emptyDb 0 []) eq_refl) as (Hq & Ha & _).
  split; [exact Hq | exact Ha].
Defined.

(** C2 as it is worded fails on an input with two separators: the answer
    should be everything after the first, the row holds the text up to the
    second. *)
Lemma answer_stops_at_second_separator :
  spec_question "a | b | c" = "a" ∧ spec_answer "a | b | c" = Some "b | c" ∧
  answer <$> memory (db (snd (teach 1 "a | b | c" (world emptyDb 0 [])))) !! "a"
    = Some "b" ∧
  Some "b" ≠ spec_answer "a | b | c".
Proof. repeat split; try reflexivity. discriminate. Qed.

(** C7, as the code has it.  A successful teach reports
    [Learned(question, answer)] with the question trimmed but in the case it
    was typed in, and the trimmed answer; the key of the row it wrote is the
    lower-casing of that question, which is its normalization. *)
Theorem learned_reports_typed_question chat data q a w :
  learned chat data q a w →
  q = spec_question data ∧ answerPart data = Some a ∧
  issued (snd (teach chat data w)) =
    (issued w ++ [InsertOrReplaceMemory (toLowerCase q) a])%list ∧
  memory (db (snd (teach chat data w))) !! toLowerCase q =
    Some (mkEntry a (now w) 0) ∧
  normalize q = toLowerCase q.
Proof.
  intros Hl.
  destruct (learned_inv _ _ _ _ _ Hl) as (Hq & Ha & _).
  destruct (learned_key _ _ _ _ _ Hl) as (Hk & _).
  rewrite questionPart_spec in Hq. injection Hq as Hq.
  rewrite (learned_teach _ _ _ _ _ Hl). cbn [snd db memory]. rewrite <- Hk.
  repeat split; try done.
  - rewrite issued_trace, issued_world. reflexivity.
  - apply lookup_insert_eq.
Qed.

Lemma learned_reports_typed_question_witness :
  learned 1 "  Foo  | Bar" "Foo" "Bar" (world emptyDb 0 []) ∧
  "Foo" = spec_question "  Foo  | Bar" ∧
  memory (db (snd (teach 1 "  Foo  | Bar" (world emptyDb 0 [])))) !! "foo" =
    Some (mkEntry "Bar" 0 0).
Proof.
  assert (learned 1 "  Foo  | Bar" "Foo" "Bar" (world emptyDb 0 [])) as Hl
    by reflexivity.
  split; [exact Hl|].
  pose proof (learned_reports_typed_question _ _ _ _ _ Hl) as (Hq & _ & _ & Hm & _).
  split; [exact Hq | exact Hm].
Defined.

(** C7 as it is worded fails: the question in the reply is not the key. *)
Lemma learned_question_is_not_the_key :
  sent (snd (teach 1 "Foo | Bar" (world emptyDb 0 []))) =
    [(1%Z, Learned "Foo" "Bar")] ∧
  issued (snd (teach 1 "Foo | Bar" (world emptyDb 0 []))) =
    [InsertOrReplaceMemory "foo" "Bar"] ∧
  normalize "Foo" = "foo" ∧
  Learned "Foo" "Bar" ≠ Learned (normalize "Foo") "Bar".
Proof. repeat split; try reflexivity. discriminate. Qed.

(** C1, as the code has it.  [INSERT OR REPLACE] replaces the whole row: a
    successful teach of a question whose key is already in the store leaves
    a row with the new answer, the time of the teach and a usage count of
    0, whatever the count was; every other row and the log are as before. *)
Theorem reteach_replaces_row chat data q a e w :
  memory (db w) !! normalize q = Some e →
  learned chat data q a w →
  memory (db (snd (teach chat data w))) !! normalize q =
    Some (mkEntry a (now w) 0) ∧
  (∀ k, k ≠ normalize q →
        memory (db (snd (teach chat data w))) !! k = memory (db w) !! k) ∧
  logs (db (snd (teach chat data w))) = logs (db w).
Proof.
  intros _ Hl. rewrite (learned_teach _ _ _ _ _ Hl). cbn [snd db memory logs].
  split; [apply lookup_insert_eq|]. split; [|done].
  intros k Hne. by apply lookup_insert_ne.
Qed.

Lemma reachable_replay session : ∀ d, reachable d → reachable (replay session d).
Proof.
  induction session as [|[t time] rest IH]; intros d Hd; [exact Hd|].
  cbn [replay]. apply IH. by constructor.
Defined.

Lemma reteach_replaces_row_witness :
  memory (db (world used_once 3 [])) !! normalize "Foo" =
    Some (mkEntry "Bar" 1 1) ∧
  learned 1 "Foo | Baz" "Foo" "Baz" (world used_once 3 []) ∧
  memory (db (snd (teach 1 "Foo | Baz" (world used_once 3 [])))) !! normalize "Foo"
    = Some (mkEntry "Baz" 3 0).
Proof.
  assert (memory (db (world used_once 3 [])) !! normalize "Foo" =
            Some (mkEntry "Bar" 1 1)) as Hm by reflexivity.
  assert (learned 1 "Foo | Baz" "Foo" "Baz" (world used_once 3 [])) as Hl
    by reflexivity.
  split; [exact Hm|]. split; [exact Hl|].
  exact (proj1 (reteach_replaces_row 1 "Foo | Baz" "Foo" "Baz" _ _ Hm Hl)).
Defined.

(** C1 as it is worded fails: [foo] is taught and asked once, so its count
    is 1; teaching it again puts the count back to 0. *)
Lemma reteach_resets_usage_count :
  reachable used_once ∧
  memory used_once !! "foo" = Some (mkEntry "Bar" 1 1) ∧
  memory (replay [("!teach Foo | Baz", 3%N)] used_once) !! "foo" =
    Some (mkEntry "Baz" 3 0) ∧
  usage_count <$> memory (replay [("!teach Foo | Baz", 3%N)] used_once) !! "foo"
    ≠ usage_count <$> memory used_once !! "foo".
Proof.
  split; [apply reachable_replay; constructor|].
  split; [reflexivity|]. split; [reflexivity|]. discriminate.
Qed.

(** ** Round trip and usage counting *)

(** C4. After a successful teach, resolving any text with the normalization
    of the taught question hands back the taught answer, provided the read
    of the store goes through. *)
Theorem teach_then_resolve chat data q a w rawText w' :
  learned chat data q a w →
  db w' = db (snd (teach chat data w)) →
  normalize rawText = normalize q →
  outcome 0 w' = None →
  fst (resolve rawText w') = (None, VString a).
Proof.
  intros Hl Hdb Hn Ho.
  pose proof (learned_guard _ _ _ _ _ Hl) as Hg.
  rewrite (learned_teach _ _ _ _ _ Hl) in Hdb. cbn [snd db] in Hdb.
  rewrite <- Hn in Hg.
  rewrite (resolve_hit rawText w' Hg (mkEntry a (now w) 0)); [done | done |].
  rewrite Hdb, Hn. cbn [memory]. apply lookup_insert_eq.
Qed.

Lemma teach_then_resolve_witness :
  learned 1 "Foo | Bar" "Foo" "Bar" (world emptyDb 0 []) ∧
  fst (resolve "foo" (snd (teach 1 "Foo | Bar" (world emptyDb 0 [])))) =
    (None, VString "Bar") ∧
  fst (resolve "FOO" (snd (teach 1 "Foo | Bar" (world emptyDb 0 [])))) =
    (None, VString "Bar") ∧
  fst (resolve "  Foo  " (snd (teach 1 "Foo | Bar" (world emptyDb 0 [])))) =
    (None, VString "Bar").
Proof.
  assert (learned 1 "Foo | Bar" "Foo" "Bar" (world emptyDb 0 [])) as Hl
    by reflexivity.
  split; [exact Hl|].
  split; [|split];
    apply (teach_then_resolve 1 "Foo | Bar" "Foo" "Bar" (world emptyDb 0 []) _ _
             Hl eq_refl); reflexivity.
Defined.

Lemma resolves_count rawText n :
  truthy (DEFAULT_KNOWLEDGE_get (normalize rawText)) = false →
  ∀ w e,
    faults w = [] →
    memory (db w) !! normalize rawText = Some e →
    faults (resolves n rawText w) = [] ∧
    memory (db (resolves n rawText w)) !! normalize rawText =
      Some (mkEntry (answer e) (created_at e) (usage_count e + N.of_nat n)).
Proof.
  intros Hg. induction n as [|n IH]; intros w e Hf Hm.
  - cbn [resolves]. split; [done|]. rewrite Hm. destruct e. cbn.
    by rewrite N.add_0_r.
  - cbn [resolves].
    assert (outcome 0 w = None ∧ outcome 1 w = None) as [Ho0 Ho1]
      by (unfold outcome; by rewrite Hf).
    rewrite (resolve_hit rawText w Hg e Ho0 Hm), Ho1. cbn [snd].
    edestruct (IH (mkWorld (mkDb (alter bump (normalize rawText) (memory (db w)))
                                 (logs (db w)))
                           (now w) (tail (tail (faults w)))
                           (trace w ++ [Issued (SelectAnswer (normalize rawText));
                                        Issued (UpdateUsage (normalize rawText))]))
                   (bump e)) as [Hf' Hm'].
    + cbn [faults]. by rewrite Hf.
    + cbn [db memory]. rewrite lookup_alter. case_decide; [|done].
      by rewrite Hm.
    + split; [exact Hf'|]. rewrite Hm'. cbn [bump answer created_at usage_count].
      do 2 f_equal. lia.
Qed.

(** C8. A question that is no key of the built-in table and is found in the
    store: the resolver hands back the stored answer without an error,
    whether or not the increment goes through.  When it does, the row's
    count is one more and nothing else in the table moves; when it fails,
    the database is as before and the failure only reaches the error log.
    After a successful teach, [n] resolutions in a row leave the count at
    [n]. *)
Theorem resolve_counts_usage rawText :
  isBuiltinKey (normalize rawText) = false →
  (∀ w e,
     reachable (db w) →
     memory (db w) !! normalize rawText = Some e →
     outcome 0 w = None →
     fst (resolve rawText w) = (None, VString (answer e)) ∧
     (outcome 1 w = None →
      memory (db (snd (resolve rawText w))) !! normalize rawText =
        Some (mkEntry (answer e) (created_at e) (usage_count e + 1)) ∧
      ∀ k, k ≠ normalize rawText →
           memory (db (snd (resolve rawText w))) !! k = memory (db w) !! k) ∧
     (∀ m, outcome 1 w = Some m →
           db (snd (resolve rawText w)) = db w ∧
           errlog (snd (resolve rawText w)) =
             (errlog w ++ [("Error updating usage count: " ++ m)%string])%list)) ∧
  (∀ chat data q a w n t,
     learned chat data q a w →
     normalize q = normalize rawText →
     usage_count <$>
       memory (db (resolves n rawText
                     (world (db (snd (teach chat data w))) t [])))
         !! normalize rawText = Some (N.of_nat n)).
Proof.
  intros Hb. split.
  - intros w e Hr Hm Ho.
    assert (truthy (DEFAULT_KNOWLEDGE_get (normalize rawText)) = false) as Hg
      by (eapply reachable_store_ok; eauto).
    rewrite (resolve_hit rawText w Hg e Ho Hm). cbn [fst snd].
    split; [done|]. split.
    + intros ->. cbn [db memory]. split.
      * rewrite lookup_alter. case_decide; [|done]. by rewrite Hm.
      * intros k Hne. rewrite lookup_alter. case_decide; [congruence | done].
    + intros m ->. split; [done|].
      unfold errlog. cbn [trace]. by rewrite omap_app.
  - intros chat data q a w n t Hl Hn.
    pose proof (learned_guard _ _ _ _ _ Hl) as Hg. rewrite Hn in Hg.
    destruct (resolves_count rawText n Hg
                (world (db (snd (teach chat data w))) t [])
                (mkEntry a (now w) 0)) as [_ Hm]; [done | |].
    + rewrite (learned_teach _ _ _ _ _ Hl). cbn [snd world db memory].
      rewrite Hn. apply lookup_insert_eq.
    + rewrite Hm. cbn. done.
Qed.

Lemma resolve_counts_usage_witness :
  isBuiltinKey (normalize " FOO ") = false ∧
  fst (resolve " FOO " (world used_once 5 [None; Some "disk I/O error"])) =
    (None, VString "Bar") ∧
  db (snd (resolve " FOO " (world used_once 5 [None; Some "disk I/O error"]))) =
    used_once ∧
  memory (db (snd (resolve " FOO " (world used_once 5 []))))
    !! normalize " FOO " = Some (mkEntry "Bar" 1 2) ∧
  usage_count <$>
    memory (db (resolves 3 " FOO "
                  (world (db (snd (teach 1 "foo | Bar" (world emptyDb 0 []))))
                         7 [])))
      !! normalize " FOO " = Some 3%N.
Proof.
  assert (isBuiltinKey (normalize " FOO ") = false) as Hb by reflexivity.
  destruct (resolve_counts_usage " FOO " Hb) as [Hone Hmany].
  assert (reachable used_once) as Hr by (apply reachable_replay; constructor).
  split; [exact Hb|].
  destruct (Hone (world used_once 5 [None; Some "disk I/O error"])
                 (mkEntry "Bar" 1 1) Hr eq_refl eq_refl) as (Ha & _ & Hf).
  destruct (Hone (world used_once 5 []) (mkEntry "Bar" 1 1) Hr eq_refl eq_refl)
    as (_ & Hs & _).
  split; [exact Ha|].
  split; [exact (proj1 (Hf "disk I/O error" eq_refl))|].
  split; [exact (proj1 (Hs eq_refl))|].
  apply (Hmany 1%Z "foo | Bar" "foo" "Bar" (world emptyDb 0 []) 3%nat 7%N);
    reflexivity.
Defined.

(** ** The Interaction Log *)

Section Quiet.

Lemma quiet_refl w : quiet w w.
Proof. exists []. by rewrite app_nil_r. Qed.

Lemma quiet_trans w1 w2 w3 : quiet w1 w2 → quiet w2 w3 → quiet w1 w3.
Proof.
  intros (e1 & T1 & F1 & L1) (e2 & T2 & F2 & L2).
  exists (e1 ++ e2)%list. rewrite T2, T1, <- app_assoc, forallb_app, F1, F2.
  split; [done|]. split; [done | congruence].
Qed.

Lemma quiet_events w d t fs evs :
  logs d = logs (db w) →
  forallb (λ e, negb (recordsLog e)) evs = true →
  quiet w (mkWorld d t fs (trace w ++ evs)).
Proof. intros Hl Hf. by exists evs. Qed.

Lemma teach_quiet chat data w : quiet w (snd (teach chat data w)).
Proof.
  destruct (falsy (questionPart data) || falsy (answerPart data)) eqn:Hc.
  { rewrite teach_invalid by done. by apply quiet_events. }
  apply orb_false_elim in Hc as [Hfq Hfa].
  apply falsy_false in Hfq as (q & Hq & Hqne).
  apply falsy_false in Hfa as (a & Ha & Hane).
  destruct (truthy (DEFAULT_KNOWLEDGE_get (toLowerCase q))) eqn:Hg.
  { rewrite (teach_conflict chat data w q a) by done. by apply quiet_events. }
  destruct (outcome 0 w) as [m|] eqn:Ho.
  { rewrite (teach_save_failed chat data w q a Hq Ha Hqne Hane m) by done.
    by apply quiet_events. }
  rewrite (teach_learns chat data w q a) by done. by apply quiet_events.
Qed.

Lemma resolve_quiet rawText w : quiet w (snd (resolve rawText w)).
Proof.
  destruct (truthy (DEFAULT_KNOWLEDGE_get (normalize rawText))) eqn:Hg.
  { rewrite resolve_guard_open by done. apply quiet_refl. }
  destruct (outcome 0 w) as [m|] eqn:Ho.
  { rewrite (resolve_read_failed _ _ Hg m) by done. by apply quiet_events. }
  destruct (memory (db w) !! normalize rawText) as [e|] eqn:Hm.
  - rewrite (resolve_hit _ _ Hg e) by done.
    destruct (outcome 1 w); by apply quiet_events.
  - rewrite resolve_miss by done. by apply quiet_events.
Qed.

Lemma sendMessage_quiet chat r w : quiet w (snd (sendMessage chat r w)).
Proof. by apply quiet_events. Qed.

Lemma handleStats_quiet msg w : quiet w (snd (handleStats msg w)).
Proof.
  unfold handleStats, db_count_memory, db_count_logs, db_top_questions.
  run_M.
  destruct (outcome 0 w); run_M;
    [rewrite <- !app_assoc; by apply quiet_events|].
  destruct (outcome 0 _); run_M;
    [rewrite <- !app_assoc; by apply quiet_events|].
  destruct (outcome 0 _); run_M;
    rewrite <- !app_assoc; by apply quiet_events.
Qed.

Lemma onText_quiet msg w :
  quiet w (snd ((onText "/help" handleHelp msg;;
                 onText "/stats" handleStats msg) w)).
Proof.
  unfold onText, handleHelp, mbind, M_bind.
  destruct (text msg) as [t|]; [|apply quiet_refl].
  set (m2 := if includes t "/help"
             then sendMessage (chat_id msg) HelpText else mret tt).
  assert (quiet w (snd (m2 w))) as Hh.
  { subst m2. destruct (includes t "/help");
      [apply sendMessage_quiet | apply quiet_refl]. }
  destruct (m2 w) as [[] w2]. cbn [snd] in Hh.
  destruct (includes t "/stats").
  - eapply quiet_trans; [exact Hh | apply handleStats_quiet].
  - exact Hh.
Qed.

Lemma answering_quiet msg rawText w :
  quiet w (snd (getAnswer rawText (λ err ans,
                  match err with
                  | Some _ => sendMessage (chat_id msg) ProcessingError
                  | None =>
                      if truthy ans
                      then sendMessage (chat_id msg) (Answer ans)
                      else sendMessage (chat_id msg) DontKnow
                  end) w)).
Proof.
  rewrite getAnswer_resolve.
  eapply quiet_trans; [apply resolve_quiet|].
  destruct (fst (fst (resolve rawText w))); [apply sendMessage_quiet|].
  destruct (truthy _); apply sendMessage_quiet.
Qed.

End Quiet.

Lemma onText_db msg w :
  db (snd ((onText "/help" handleHelp msg;;
            onText "/stats" handleStats msg) w)) = db w.
Proof.
  unfold onText, handleHelp, mbind, M_bind.
  destruct (text msg) as [t|]; [|done].
  set (m2 := if includes t "/help"
             then sendMessage (chat_id msg) HelpText else mret tt).
  assert (db (snd (m2 w)) = db w) as Hh.
  { subst m2. by destruct (includes t "/help"). }
  destruct (m2 w) as [[] w2]. cbn [snd] in Hh.
  destruct (includes t "/stats"); [by rewrite handleStats_db | done].
Qed.

Lemma processUpdate_unfold msg w :
  processUpdate msg w =
    (onText "/help" handleHelp msg;; onText "/stats" handleStats msg)
      (snd (onMessage msg w)).
Proof.
  unfold processUpdate. unfold mbind at 1. unfold M_bind.
  by destruct (onMessage msg w) as [[] w1].
Qed.

(** C9, as the code has it.  An inbound text that does not start with [/]
    is handed to [handleMessage], and the insert of its trimmed text into
    the log is the first thing issued, before the teach or the resolution;
    it is the only insert into the log, and the log gains that one row when
    the insert goes through.  A text that starts with [/], as the [/help]
    and [/stats] commands do, never reaches [handleMessage]: no insert into
    the log is issued and the database is the one before. *)
Theorem text_logged_unless_command msg t w :
  text msg = Some t → t ≠ "" →
  if startsWith t "/" then
    db (snd (processUpdate msg w)) = db w ∧ quiet w (snd (processUpdate msg w))
  else
    ∃ rest,
      trace (snd (processUpdate msg w)) =
        (trace w ++
         Issued (InsertLog (from_id msg) (orElse (from_username msg) "Unknown")
                           (trim t)) :: rest)%list ∧
      forallb (λ e, negb (recordsLog e)) rest = true ∧
      logs (db (snd (processUpdate msg w))) =
        match outcome 0 w with
        | None =>
            (logs (db w) ++
             [mkLog (from_id msg) (orElse (from_username msg) "Unknown")
                    (trim t) (now w)])%list
        | Some _ => logs (db w)
        end.
Proof.
  intros Ht Hne. apply isEmpty_false in Hne.
  rewrite processUpdate_unfold. unfold onMessage.
  rewrite Ht. cbn [falsy orElse]. rewrite Hne. cbn [negb andb].
  destruct (startsWith t "/") eqn:Hs; cbn [negb].
  - cbn [mret M_ret snd]. split; [apply onText_db | apply onText_quiet].
  - set (uname := orElse (from_username msg) "Unknown").
    assert (∃ w1, quiet w1 (snd (handleMessage msg w)) ∧
                  saveLog (from_id msg) uname (trim t) w = (tt, w1))
      as (w1 & Hq1 & Hw1).
    { unfold handleMessage. rewrite Ht. cbn [falsy orElse]. rewrite Hne.
      fold uname. unfold mbind, M_bind.
      destruct (saveLog (from_id msg) uname (trim t) w) as [[] w1].
      exists w1. split; [|done].
      destruct (startsWith (trim t) "!teach");
        [apply teach_quiet | apply answering_quiet]. }
    pose proof (onText_quiet msg (snd (handleMessage msg w))) as Hq2.
    destruct (quiet_trans _ _ _ Hq1 Hq2) as (evs & Htr & Hf & Hl).
    rewrite Htr, Hl. rewrite saveLog_effect in Hw1. injection Hw1 as <-.
    destruct (outcome 0 w) as [m|]; cbn [trace db logs].
    + exists (Logged ("Error saving log: " ++ m) :: evs).
      rewrite <- app_assoc. done.
    + exists evs. rewrite <- app_assoc. done.
Qed.

Lemma text_logged_unless_command_witness :
  trace (snd (processUpdate (says "  see /help ") (world emptyDb 4 []))) =
    [Issued (InsertLog 42 "bob" "see /help");
     Issued (SelectAnswer "see /help");
     Sent 1 DontKnow; Sent 1 HelpText] ∧
  logs (db (snd (processUpdate (says "  see /help ") (world emptyDb 4 [])))) =
    [mkLog 42 "bob" "see /help" 4].
Proof.
  pose proof (text_logged_unless_command (says "  see /help ") "  see /help "
                (world emptyDb 4 []) eq_refl ltac:(discriminate)) as H.
  cbn [startsWith Ascii.eqb Bool.eqb andb] in H.
  destruct H as (rest & Htr & _ & Hl).
  split; [reflexivity | exact Hl].
Defined.

(** C9 as it is worded fails: the [/help] and [/stats] commands are handled
    and leave the log empty. *)
Lemma commands_are_not_logged :
  processUpdate (says "/help") (world emptyDb 4 []) =
    (tt, mkWorld emptyDb 4 [] [Sent 1 HelpText]) ∧
  sent (snd (processUpdate (says "/stats") (world emptyDb 4 []))) =
    [(1%Z, StatsText 0 0 [])] ∧
  logs (db (snd (processUpdate (says "/stats") (world emptyDb 4 [])))) = [].
Proof. repeat split; reflexivity. Qed.

(** ** Further properties of the resolver *)

(** X1.  The resolver sees a text only through its normalization: case and
    surrounding whitespace change neither the result nor what is done to
    the world. *)
Theorem resolve_normalization_invariant rawText w :
  resolve (normalize rawText) w = resolve rawText w ∧
  resolve (trim rawText) w = resolve rawText w ∧
  resolve (toLowerCase rawText) w = resolve rawText w.
Proof.
  assert (∀ t1 t2, normalize t1 = normalize t2 → resolve t1 w = resolve t2 w)
    as H.
  { intros t1 t2 E. unfold resolve, getAnswer.
    fold (normalize t1). fold (normalize t2). by rewrite E. }
  split; [apply H, normalize_idem|]. split; apply H; unfold normalize.
  - by rewrite !toLowerCase_trim, trim_idem.
  - by rewrite toLowerCase_idem.
Qed.

(** X2.  One resolution issues nothing, or one read, or one read followed by one
    increment of the row read; the increment is issued only when an answer
    from the store is handed back.  The resolver sends no message and
    leaves the log alone. *)
Theorem resolve_statements_bounded rawText w :
  ∃ stmts,
    issued (snd (resolve rawText w)) = (issued w ++ stmts)%list ∧
    (stmts = [] ∨
     stmts = [SelectAnswer (normalize rawText)] ∨
     (stmts = [SelectAnswer (normalize rawText);
               UpdateUsage (normalize rawText)] ∧
      ∃ e, memory (db w) !! normalize rawText = Some e ∧
           fst (resolve rawText w) = (None, VString (answer e)))) ∧
    sent (snd (resolve rawText w)) = sent w ∧
    logs (db (snd (resolve rawText w))) = logs (db w).
Proof.
  destruct (truthy (DEFAULT_KNOWLEDGE_get (normalize rawText))) eqn:Hg.
  { rewrite resolve_guard_open by done. exists []. rewrite app_nil_r. auto. }
  destruct (outcome 0 w) as [m|] eqn:Ho.
  { rewrite (resolve_read_failed _ _ Hg m) by done.
    exists [SelectAnswer (normalize rawText)]. cbn [snd db].
    rewrite issued_trace, issued_world, sent_trace, sent_world.
    cbn. rewrite app_nil_r. auto. }
  destruct (memory (db w) !! normalize rawText) as [e|] eqn:Hm.
  - rewrite (resolve_hit _ _ Hg e) by done.
    exists [SelectAnswer (normalize rawText); UpdateUsage (normalize rawText)].
    cbn [fst snd].
    destruct (outcome 1 w); cbn [db logs];
      rewrite issued_trace, issued_world, sent_trace, sent_world;
      cbn; rewrite app_nil_r; (split; [done|]); (split; [|done]);
      right; right; eauto.
  - rewrite resolve_miss by done.
    exists [SelectAnswer (normalize rawText)]. cbn [snd db].
    rewrite issued_trace, issued_world, sent_trace, sent_world.
    cbn. rewrite app_nil_r. auto.
Qed.

(** ** Further properties of the teacher *)

(** X3.  A teach sends exactly one reply, and it is one of four: the format
    rejection, the built-in rejection, the save failure or [Learned]; the
    [catch] branch is never taken.  Unless the reply is [Learned] the
    database is the one before, and only the two rejections issue no
    statement. *)
Theorem teach_reply_cases chat data w :
  ∃ r,
    sent (snd (teach chat data w)) = (sent w ++ [(chat, r)])%list ∧
    match r with
    | InvalidFormat | BuiltinConflict =>
        db (snd (teach chat data w)) = db w ∧
        issued (snd (teach chat data w)) = issued w ∧
        errlog (snd (teach chat data w)) = errlog w
    | SaveFailed =>
        db (snd (teach chat data w)) = db w ∧
        ∃ q a m, outcome 0 w = Some m ∧
          issued (snd (teach chat data w)) =
            (issued w ++ [InsertOrReplaceMemory q a])%list ∧
          errlog (snd (teach chat data w)) =
            (errlog w ++ [("Error teaching question: " ++ m)%string])%list
    | Learned q a =>
        outcome 0 w = None ∧
        issued (snd (teach chat data w)) =
          (issued w ++ [InsertOrReplaceMemory (normalize q) a])%list ∧
        errlog (snd (teach chat data w)) = errlog w
    | _ => False
    end.
Proof.
  assert (∀ d t fs evs, errlog (mkWorld d t fs (trace w ++ evs)) =
            (errlog w ++ errlog (mkWorld d t fs evs))%list) as He.
  { intros. unfold errlog. cbn [trace]. apply omap_app. }
  destruct (falsy (questionPart data) || falsy (answerPart data)) eqn:Hc.
  { rewrite teach_invalid by done. exists InvalidFormat. cbn [snd db].
    rewrite sent_trace, sent_world, issued_trace, issued_world, He.
    cbn. rewrite !app_nil_r. done. }
  apply orb_false_elim in Hc as [Hfq Hfa].
  apply falsy_false in Hfq as (q & Hq & Hqne).
  apply falsy_false in Hfa as (a & Ha & Hane).
  destruct (truthy (DEFAULT_KNOWLEDGE_get (toLowerCase q))) eqn:Hg.
  { rewrite (teach_conflict chat data w q a) by done.
    exists BuiltinConflict. cbn [snd db].
    rewrite sent_trace, sent_world, issued_trace, issued_world, He.
    cbn. rewrite !app_nil_r. done. }
  destruct (outcome 0 w) as [m|] eqn:Ho.
  { rewrite (teach_save_failed chat data w q a Hq Ha Hqne Hane m) by done.
    exists SaveFailed. cbn [snd db].
    rewrite sent_trace, sent_world, issued_trace, issued_world, He.
    cbn. split; [done|]. split; [done|].
    exists (normalize q), a, m. done. }
  rewrite (teach_learns chat data w q a) by done.
  exists (Learned q a). cbn [snd db].
  rewrite sent_trace, sent_world, issued_trace, issued_world, He.
  cbn. rewrite !app_nil_r. done.
Qed.

(** ** The handler, unfolded by kind of message *)

Section HandleMessage.

Variables (msg : Msg) (t : string) (w : World).
Hypothesis Ht : text msg = Some t.
Hypothesis Hne : t ≠ "".

Let logged : World :=
  snd (saveLog (from_id msg) (orElse (from_username msg) "Unknown") (trim t) w).

Lemma handleMessage_teach :
  startsWith (trim t) "!teach" = true →
  handleMessage msg w =
    teach (chat_id msg) (trim (substring 6 (trim t))) logged.
Proof using Ht Hne.
  intros Hs. unfold handleMessage, logged. rewrite Ht. cbn [falsy orElse].
  apply isEmpty_false in Hne. rewrite Hne, Hs.
  unfold mbind, M_bind. by destruct (saveLog _ _ _ w) as [[] w1].
Qed.

Lemma handleMessage_question :
  startsWith (trim t) "!teach" = false →
  handleMessage msg w =
    sendMessage (chat_id msg)
      (answerReply (fst (fst (resolve (trim t) logged)))
                   (snd (fst (resolve (trim t) logged))))
      (snd (resolve (trim t) logged)).
Proof using Ht Hne.
  intros Hs. unfold handleMessage, logged. rewrite Ht. cbn [falsy orElse].
  apply isEmpty_false in Hne. rewrite Hne, Hs.
  unfold mbind, M_bind. destruct (saveLog _ _ _ w) as [[] w1]. cbn [snd].
  rewrite getAnswer_resolve. unfold answerReply.
  destruct (fst (fst (resolve (trim t) w1))); [done|].
  by destruct (truthy _).
Qed.

Lemma logged_frame :
  memory (db logged) = memory (db w) ∧ now logged = now w ∧
  sent logged = sent w ∧
  faults logged = tail (faults w).
Proof.
  unfold logged. rewrite saveLog_effect. cbn [snd].
  destruct (outcome 0 w); cbn [db memory now faults];
    rewrite sent_trace, sent_world; cbn; by rewrite app_nil_r.
Qed.

End HandleMessage.

(** ** The store, update by update *)

Section StoreSteps.

Lemma teach_store_step chat data w :
  store_step (now w) (memory (db w)) (memory (db (snd (teach chat data w)))).
Proof.
  destruct (falsy (questionPart data) || falsy (answerPart data)) eqn:Hc.
  { rewrite teach_invalid by done. constructor. }
  apply orb_false_elim in Hc as [Hfq Hfa].
  apply falsy_false in Hfq as (q & Hq & Hqne).
  apply falsy_false in Hfa as (a & Ha & Hane).
  destruct (truthy (DEFAULT_KNOWLEDGE_get (toLowerCase q))) eqn:Hg.
  { rewrite (teach_conflict chat data w q a) by done. constructor. }
  destruct (outcome 0 w) as [m|] eqn:Ho.
  { rewrite (teach_save_failed chat data w q a Hq Ha Hqne Hane m) by done.
    constructor. }
  rewrite (teach_learns chat data w q a) by done. cbn [snd db memory].
  by apply (store_taught _ _ data).
Qed.

Lemma resolve_store_step rawText w :
  store_step (now w) (memory (db w)) (memory (db (snd (resolve rawText w)))).
Proof.
  destruct (truthy (DEFAULT_KNOWLEDGE_get (normalize rawText))) eqn:Hg.
  { rewrite resolve_guard_open by done. constructor. }
  destruct (outcome 0 w) as [m|] eqn:Ho.
  { rewrite (resolve_read_failed _ _ Hg m) by done. constructor. }
  destruct (memory (db w) !! normalize rawText) as [e|] eqn:Hm.
  - rewrite (resolve_hit _ _ Hg e) by done.
    destruct (outcome 1 w); cbn [snd db memory];
      [constructor | by apply (store_used _ _ _ e)].
  - rewrite resolve_miss by done. constructor.
Qed.

Lemma handleMessage_store_step msg w :
  store_step (now w) (memory (db w)) (memory (db (snd (handleMessage msg w)))).
Proof.
  destruct (text msg) as [t|] eqn:Ht;
    [|unfold handleMessage; rewrite Ht; constructor].
  destruct (isEmpty t) eqn:He.
  { unfold handleMessage. rewrite Ht. cbn [falsy]. rewrite He. constructor. }
  apply isEmpty_false in He.
  destruct (logged_frame msg t w) as (Hm & Hn & _).
  rewrite <- Hm, <- Hn.
  destruct (startsWith (trim t) "!teach") eqn:Hs.
  - rewrite (handleMessage_teach msg t w Ht He Hs). apply teach_store_step.
  - rewrite (handleMessage_question msg t w Ht He Hs).
    apply resolve_store_step.
Qed.

Lemma processUpdate_store_step msg w :
  store_step (now w) (memory (db w)) (memory (db (snd (processUpdate msg w)))).
Proof.
  rewrite processUpdate_unfold, onText_db. unfold onMessage.
  destruct (_ && _); [apply handleMessage_store_step | constructor].
Qed.

End StoreSteps.

(** ** More on strings *)

Section MoreStrings.

Lemma separator_lower c : Ascii.eqb (lower c) "|" = Ascii.eqb c "|".
Proof. destruct c as [[] [] [] [] [] [] [] []]; reflexivity. Qed.

Lemma hasChar_toLowerCase s : hasChar "|" (toLowerCase s) = hasChar "|" s.
Proof.
  induction s as [|c s IH]; cbn [toLowerCase hasChar]; [done|].
  by rewrite separator_lower, IH.
Qed.

Lemma hasChar_trimStart c s :
  hasChar c s = false → hasChar c (trimStart s) = false.
Proof.
  induction s as [|d s IH]; cbn [trimStart hasChar]; [done|].
  intros [Hd Hs]%orb_false_elim.
  destruct (is_ws d); [by apply IH|]. cbn [hasChar]. by rewrite Hd, Hs.
Qed.

Lemma hasChar_trimEnd c s :
  hasChar c s = false → hasChar c (trimEnd s) = false.
Proof.
  induction s as [|d s IH]; cbn [trimEnd hasChar]; [done|].
  intros [Hd Hs]%orb_false_elim.
  destruct (is_ws d && isEmpty (trimEnd s)); [done|].
  cbn [hasChar]. by rewrite Hd, IH.
Qed.

Lemma hasChar_trim c s : hasChar c s = false → hasChar c (trim s) = false.
Proof. intros H. by apply hasChar_trimEnd, hasChar_trimStart. Qed.

Lemma hasChar_beforeFirst sep s : hasChar sep (beforeFirst sep s) = false.
Proof.
  induction s as [|d s IH]; cbn [beforeFirst]; [done|].
  destruct (Ascii.eqb d sep) eqn:E; [done|]. cbn [hasChar]. by rewrite E, IH.
Qed.

Lemma questionPart_no_separator data q :
  questionPart data = Some q → hasChar "|" q = false.
Proof.
  rewrite questionPart_spec. intros [= <-].
  apply hasChar_trim, hasChar_beforeFirst.
Qed.

Lemma answerPart_no_separator data a :
  answerPart data = Some a → hasChar "|" a = false.
Proof.
  rewrite answerPart_spec.
  destruct (afterFirst "|" data); cbn; intros [= <-].
  apply hasChar_trim, hasChar_beforeFirst.
Qed.

End MoreStrings.

(** ** Invariants of the store *)

Lemma store_step_rows_ok t m m' :
  store_step t m m' →
  (∀ k e, m !! k = Some e → row_ok k e) →
  ∀ k e, m' !! k = Some e → row_ok k e.
Proof.
  intros Hs Hok k e.
  destruct Hs as [|data q a Hq Ha Hqne Hane Hg|k0 e0 Hk0]; [apply Hok| |].
  - destruct (decide (normalize q = k)) as [<-|Hk];
      [|rewrite lookup_insert_ne by done; apply Hok].
    rewrite lookup_insert_eq. intros [= <-].
    assert (normalize q = toLowerCase q) as Hn.
    { rewrite <- (questionPart_trimmed data q Hq) at 1.
      rewrite normalize_trim. by rewrite (questionPart_trimmed data q Hq). }
    unfold row_ok. cbn [answer].
    split; [apply normalize_idem|]. rewrite Hn.
    split. { intros E%isEmpty_true. rewrite isEmpty_toLowerCase in E.
             by apply isEmpty_true in E. }
    split. { rewrite hasChar_toLowerCase.
             by eapply questionPart_no_separator. }
    split; [done|].
    split; [by eapply answerPart_trimmed|].
    split; [done | by eapply answerPart_no_separator].
  - rewrite lookup_alter. case_decide as Hd; [|apply Hok].
    subst k0. rewrite Hk0. cbn. intros [= <-].
    apply Hok in Hk0. exact Hk0.
Qed.

Lemma rows_ok_step d msg t fs :
  rows_ok d → rows_ok (db (snd (processUpdate msg (world d t fs)))).
Proof.
  intros Hok k e.
  pose proof (processUpdate_store_step msg (world d t fs)) as Hs.
  cbn [world db now] in Hs. by apply (store_step_rows_ok _ _ _ Hs).
Qed.

Lemma rows_ok_empty : rows_ok emptyDb.
Proof. intros k e. unfold emptyDb. cbn [memory]. by rewrite lookup_empty. Qed.

Lemma reachable_rows d : reachable d → rows_ok d.
Proof. induction 1; [apply rows_ok_empty | by apply rows_ok_step]. Qed.

(** X4.  Whatever messages arrived, under whatever failures, every row of the
    store is well formed: its key is its own normalization, is not empty,
    holds no separator and is known neither to the built-in table nor to
    the prototype chain; its answer is trimmed, is not empty and holds no
    separator. *)
Theorem reachable_rows_ok d : reachable d → rows_ok d.
Proof.
  induction 1 as [|d msg t fs Hr IH];
    [apply rows_ok_empty | by apply rows_ok_step].
Qed.

Lemma reachable_rows_ok_witness :
  reachable used_once ∧ rows_ok used_once.
Proof.
  assert (reachable used_once) as Hr by (apply reachable_replay; constructor).
  split; [exact Hr | exact (reachable_rows_ok used_once Hr)].
Defined.

(** X5.  No update deletes a row or touches an older row of the log: the keys of
    the store before are keys after, and the log before is a prefix of the
    log after, longer by one row at most. *)
Theorem update_keeps_rows_and_log msg w :
  dom (memory (db w)) ⊆ dom (memory (db (snd (processUpdate msg w)))) ∧
  ∃ new, logs (db (snd (processUpdate msg w))) = (logs (db w) ++ new)%list ∧
         (List.length new ≤ 1)%nat.
Proof.
  split.
  - destruct (processUpdate_store_step msg w) as [|data q a _ _ _ _ _|k e Hk].
    + done.
    + rewrite dom_insert. set_solver.
    + by rewrite dom_alter.
  - rewrite processUpdate_unfold, onText_db. unfold onMessage.
    destruct (_ && _); [|exists []; rewrite app_nil_r; split; [done | cbn; lia]].
    destruct (text msg) as [t|] eqn:Ht;
      [|unfold handleMessage; rewrite Ht; exists []; rewrite app_nil_r; split; [done | cbn; lia]].
    destruct (isEmpty t) eqn:He.
    { unfold handleMessage. rewrite Ht. cbn [falsy]. rewrite He.
      exists []. rewrite app_nil_r. split; [done | cbn; lia]. }
    apply isEmpty_false in He.
    set (w1 := snd (saveLog (from_id msg)
                      (orElse (from_username msg) "Unknown") (trim t) w)).
    assert (logs (db (snd (handleMessage msg w))) = logs (db w1)) as ->.
    { destruct (startsWith (trim t) "!teach") eqn:Hs.
      - rewrite (handleMessage_teach msg t w Ht He Hs).
        apply teach_memory.
      - rewrite (handleMessage_question msg t w Ht He Hs).
        apply resolve_memory. }
    subst w1. rewrite saveLog_effect. cbn [snd].
    destruct (outcome 0 w); cbn [db logs];
      [exists []; rewrite app_nil_r; split; [done | cbn; lia] | eexists; split; [done|cbn; lia]].
Qed.

(** ** Question messages *)

Section Projections.

Lemma errlog_trace d t fs tr evs :
  errlog (mkWorld d t fs (tr ++ evs)) =
    (errlog (mkWorld d t fs tr) ++ errlog (mkWorld d t fs evs))%list.
Proof. unfold errlog. cbn [trace]. apply omap_app. Qed.

Lemma errlog_world w d t fs : errlog (mkWorld d t fs (trace w)) = errlog w.
Proof. done. Qed.

Lemma sendMessage_effect chat r w :
  sent (snd (sendMessage chat r w)) = (sent w ++ [(chat, r)])%list ∧
  issued (snd (sendMessage chat r w)) = issued w ∧
  errlog (snd (sendMessage chat r w)) = errlog w ∧
  db (snd (sendMessage chat r w)) = db w.
Proof.
  unfold sendMessage, emit. cbn [snd db].
  rewrite sent_trace, sent_world, issued_trace, issued_world,
    errlog_trace, errlog_world.
  cbn. by rewrite !app_nil_r.
Qed.

Lemma normalize_of_trim s : normalize (trim s) = normalize s.
Proof. unfold normalize. by rewrite !toLowerCase_trim, trim_idem. Qed.

Lemma outcome_shift w1 w n :
  faults w1 = tail (faults w) → outcome n w1 = outcome (S n) w.
Proof. unfold outcome. intros ->. by destruct (faults w). Qed.

End Projections.

Section Question.

Variables (msg : Msg) (t : string) (w : World).
Hypothesis Ht : text msg = Some t.
Hypothesis Hne : t ≠ "".
Hypothesis Hq : startsWith (trim t) "!teach" = false.

Let uname : string := orElse (from_username msg) "Unknown".
Let logged : World := snd (saveLog (from_id msg) uname (trim t) w).

Lemma question_logged :
  memory (db logged) = memory (db w) ∧
  sent logged = sent w ∧
  issued logged = (issued w ++ [InsertLog (from_id msg) uname (trim t)])%list ∧
  (∀ n, outcome n logged = outcome (S n) w) ∧
  (∀ line, line ∈ errlog w → line ∈ errlog logged).
Proof using Type.
  clear Ht Hne Hq.
  unfold logged. rewrite saveLog_effect. cbn [snd].
  destruct (outcome 0 w); cbn [db memory];
    rewrite sent_trace, sent_world, issued_trace, issued_world,
      errlog_trace, errlog_world; cbn; rewrite ?app_nil_r;
    (split; [done|]); (split; [done|]); (split; [done|]);
    (split; [intros n; by apply outcome_shift | set_solver]).
Qed.

Lemma question_handled :
  handleMessage msg w =
    sendMessage (chat_id msg)
      (answerReply (fst (fst (resolve (trim t) logged)))
                   (snd (fst (resolve (trim t) logged))))
      (snd (resolve (trim t) logged)).
Proof using Ht Hne Hq. by apply handleMessage_question. Qed.

End Question.

Ltac question_setup msg t w Hlm Hls Hli Hlo Hle :=
  (rewrite (question_handled msg t w) by assumption);
  destruct (question_logged msg t w) as (Hlm & Hls & Hli & Hlo & Hle);
  set (logged := snd (saveLog (from_id msg)
                        (orElse (from_username msg) "Unknown") (trim t) w))
    in *.

(** X6.  A question whose read of the store fails: the user is told that an
    error occurred, the failure is written to the error log, no increment
    is issued and the store is as before. *)
Theorem question_read_failure msg t w m :
  text msg = Some t → t ≠ "" → startsWith (trim t) "!teach" = false →
  truthy (DEFAULT_KNOWLEDGE_get (normalize t)) = false →
  outcome 1 w = Some m →
  sent (snd (handleMessage msg w)) =
    (sent w ++ [(chat_id msg, ProcessingError)])%list ∧
  issued (snd (handleMessage msg w)) =
    (issued w ++ [InsertLog (from_id msg) (orElse (from_username msg) "Unknown")
                            (trim t);
                  SelectAnswer (normalize t)])%list ∧
  memory (db (snd (handleMessage msg w))) = memory (db w) ∧
  ("Error fetching answer: " ++ m)%string ∈ errlog (snd (handleMessage msg w)).
Proof.
  intros Ht Hne Hq Hg Ho. question_setup msg t w Hlm Hls Hli Hlo Hle.
  rewrite <- (normalize_of_trim t) in Hg.
  rewrite <- Hlo in Ho.
  destruct (sendMessage_effect (chat_id msg)
              (answerReply (fst (fst (resolve (trim t) logged)))
                           (snd (fst (resolve (trim t) logged))))
              (snd (resolve (trim t) logged))) as (-> & -> & -> & ->).
  rewrite (resolve_read_failed (trim t) logged Hg m Ho). cbn [fst snd db].
  rewrite sent_trace, sent_world, issued_trace, issued_world,
    errlog_trace, errlog_world, Hls, Hli, Hlm, normalize_of_trim.
  cbn. rewrite app_nil_r, <- app_assoc.
  split; [done|]. split; [done|]. split; [done|]. set_solver.
Qed.

Lemma question_read_failure_witness :
  sent (snd (handleMessage (says "what is life")
               (world used_once 3 [None; Some "SQLITE_BUSY"]))) =
    [(1%Z, ProcessingError)] ∧
  memory (db (snd (handleMessage (says "what is life")
                     (world used_once 3 [None; Some "SQLITE_BUSY"])))) =
    memory used_once.
Proof.
  pose proof (question_read_failure (says "what is life") "what is life"
                (world used_once 3 [None; Some "SQLITE_BUSY"]) "SQLITE_BUSY"
                eq_refl ltac:(discriminate) eq_refl eq_refl eq_refl)
    as (Hs & _ & Hm & _).
  split; [exact Hs | exact Hm].
Defined.

(** X7.  A question the store does not hold: one read is issued, the user is
    told that the answer is not known, and no row is made for it. *)
Theorem question_miss msg t w :
  text msg = Some t → t ≠ "" → startsWith (trim t) "!teach" = false →
  truthy (DEFAULT_KNOWLEDGE_get (normalize t)) = false →
  outcome 1 w = None →
  memory (db w) !! normalize t = None →
  sent (snd (handleMessage msg w)) = (sent w ++ [(chat_id msg, DontKnow)])%list ∧
  issued (snd (handleMessage msg w)) =
    (issued w ++ [InsertLog (from_id msg) (orElse (from_username msg) "Unknown")
                            (trim t);
                  SelectAnswer (normalize t)])%list ∧
  memory (db (snd (handleMessage msg w))) = memory (db w).
Proof.
  intros Ht Hne Hq Hg Ho Hm. question_setup msg t w Hlm Hls Hli Hlo Hle.
  rewrite <- (normalize_of_trim t) in Hg, Hm.
  rewrite <- Hlo in Ho. rewrite <- Hlm in Hm.
  destruct (sendMessage_effect (chat_id msg)
              (answerReply (fst (fst (resolve (trim t) logged)))
                           (snd (fst (resolve (trim t) logged))))
              (snd (resolve (trim t) logged))) as (-> & -> & _ & ->).
  rewrite (resolve_miss (trim t) logged Hg Ho Hm). cbn [fst snd db].
  rewrite sent_trace, sent_world, issued_trace, issued_world,
    Hls, Hli, Hlm, normalize_of_trim.
  cbn. rewrite app_nil_r, <- app_assoc. done.
Qed.

Lemma question_miss_witness :
  sent (snd (handleMessage (says "what is life") (world used_once 3 []))) =
    [(1%Z, DontKnow)] ∧
  memory (db (snd (handleMessage (says "what is life") (world used_once 3 []))))
    = memory used_once.
Proof.
  pose proof (question_miss (says "what is life") "what is life"
                (world used_once 3 []) eq_refl ltac:(discriminate)
                eq_refl eq_refl eq_refl eq_refl) as (Hs & _ & Hm).
  split; [exact Hs | exact Hm].
Defined.

(** X8.  On a store the program has produced, a text that is not a teach command
    and whose normalization is a key gets the stored answer as its reply,
    whatever its case and surrounding whitespace, and whether or not the
    increment goes through: one read and one increment are issued. *)
Theorem question_answered msg t w e :
  text msg = Some t → t ≠ "" → startsWith (trim t) "!teach" = false →
  reachable (db w) →
  memory (db w) !! normalize t = Some e →
  outcome 1 w = None →
  sent (snd (handleMessage msg w)) =
    (sent w ++ [(chat_id msg, Answer (VString (answer e)))])%list ∧
  issued (snd (handleMessage msg w)) =
    (issued w ++ [InsertLog (from_id msg) (orElse (from_username msg) "Unknown")
                            (trim t);
                  SelectAnswer (normalize t);
                  UpdateUsage (normalize t)])%list.
Proof.
  intros Ht Hne Hq Hr Hm Ho.
  destruct (reachable_rows _ Hr _ _ Hm) as (_ & _ & _ & Hg & _ & Hane & _).
  question_setup msg t w Hlm Hls Hli Hlo Hle.
  rewrite <- (normalize_of_trim t) in Hg, Hm.
  rewrite <- Hlo in Ho. rewrite <- Hlm in Hm.
  destruct (sendMessage_effect (chat_id msg)
              (answerReply (fst (fst (resolve (trim t) logged)))
                           (snd (fst (resolve (trim t) logged))))
              (snd (resolve (trim t) logged))) as (-> & -> & _ & _).
  rewrite (resolve_hit (trim t) logged Hg e Ho Hm). cbn [fst snd].
  unfold answerReply. cbn [truthy].
  apply isEmpty_false in Hane. rewrite Hane. cbn [negb].
  destruct (outcome 1 logged);
    rewrite sent_trace, sent_world, issued_trace, issued_world,
      Hls, Hli, normalize_of_trim;
    cbn; rewrite ?app_nil_r, <- app_assoc; done.
Qed.

Lemma question_answered_witness :
  reachable (db (world used_once 3 [])) ∧
  sent (snd (handleMessage (says "  FOO ") (world used_once 3 []))) =
    [(1%Z, Answer (VString "Bar"))].
Proof.
  assert (reachable (db (world used_once 3 []))) as Hr
    by (apply reachable_replay; constructor).
  split; [exact Hr|].
  exact (proj1 (question_answered (says "  FOO ") "  FOO "
                  (world used_once 3 []) (mkEntry "Bar" 1 1)
                  eq_refl ltac:(discriminate) eq_refl Hr eq_refl eq_refl)).
Defined.

(** X9.  A text of whitespace only is not empty for the handler: it is logged
    with an empty message and asked as the empty question, which no store
    the program has produced holds, so the reply is that the answer is not
    known. *)
Theorem blank_text_is_asked msg t w :
  text msg = Some t → t ≠ "" → allWs t = true →
  reachable (db w) →
  outcome 1 w = None →
  sent (snd (handleMessage msg w)) = (sent w ++ [(chat_id msg, DontKnow)])%list ∧
  issued (snd (handleMessage msg w)) =
    (issued w ++ [InsertLog (from_id msg) (orElse (from_username msg) "Unknown")
                            "";
                  SelectAnswer ""])%list.
Proof.
  intros Ht Hne Hws Hr Ho.
  assert (trim t = "") as Htrim by by apply trim_empty.
  assert (normalize t = "") as Hn
    by (unfold normalize; by rewrite toLowerCase_trim, Htrim).
  assert (startsWith (trim t) "!teach" = false) as Hq by by rewrite Htrim.
  assert (memory (db w) !! normalize t = None) as Hm.
  { rewrite Hn. destruct (memory (db w) !! "") as [e|] eqn:E; [|done].
    by destruct (reachable_rows _ Hr _ _ E) as (_ & ? & _). }
  assert (truthy (DEFAULT_KNOWLEDGE_get (normalize t)) = false) as Hg
    by by rewrite Hn.
  question_setup msg t w Hlm Hls Hli Hlo Hle.
  rewrite <- (normalize_of_trim t) in Hg, Hm.
  rewrite <- Hlo in Ho. rewrite <- Hlm in Hm.
  destruct (sendMessage_effect (chat_id msg)
              (answerReply (fst (fst (resolve (trim t) logged)))
                           (snd (fst (resolve (trim t) logged))))
              (snd (resolve (trim t) logged))) as (-> & -> & _ & _).
  rewrite (resolve_miss (trim t) logged Hg Ho Hm). cbn [fst snd].
  rewrite sent_trace, sent_world, issued_trace, issued_world,
    Hls, Hli, normalize_of_trim, Hn, Htrim.
  cbn. rewrite app_nil_r, <- app_assoc. done.
Qed.

Lemma blank_text_is_asked_witness :
  reachable (db (world used_once 3 [])) ∧
  sent (snd (handleMessage (says "   ") (world used_once 3 []))) =
    [(1%Z, DontKnow)].
Proof.
  assert (reachable (db (world used_once 3 []))) as Hr
    by (apply reachable_replay; constructor).
  split; [exact Hr|].
  exact (proj1 (blank_text_is_asked (says "   ") "   " (world used_once 3 [])
                  eq_refl ltac:(discriminate) eq_refl Hr eq_refl)).
Defined.

(** ** Statistics *)

Section TopQuestions.

Local Instance by_usage_desc_total : Total by_usage_desc.
Proof. intros x y. unfold by_usage_desc. lia. Qed.

Local Instance by_usage_desc_trans : Transitive by_usage_desc.
Proof. intros x y z. unfold by_usage_desc. lia. Qed.

Variable m : gmap string KnowledgeEntry.

Let sorted : list (string * KnowledgeEntry) :=
  merge_sort by_usage_desc (map_to_list m).

Let top : list (string * N) :=
  take 5 ((λ r, (fst r, usage_count (snd r))) <$> sorted).

Lemma top_questions_length : List.length top = min 5 (size m).
Proof.
  unfold top, sorted.
  rewrite length_take, length_fmap.
  by rewrite (Permutation_length (merge_sort_Permutation _ _)),
    length_map_to_list.
Qed.

Lemma top_questions_sorted :
  StronglySorted (λ x y : string * N, (snd y ≤ snd x)%N) top.
Proof.
  unfold top. rewrite <- fmap_take.
  apply (StronglySorted_fmap _ by_usage_desc); [by intros x y|].
  pose proof (StronglySorted_merge_sort by_usage_desc (map_to_list m)) as H.
  fold sorted in H. rewrite <- (take_drop 5 sorted) in H.
  by apply StronglySorted_app in H as (_ & H & _).
Qed.

Lemma top_questions_keys : NoDup (fst <$> top).
Proof.
  unfold top. rewrite <- fmap_take, <- list_fmap_compose.
  change (fst ∘ _) with (@fst string KnowledgeEntry).
  rewrite fmap_take. eapply sublist_NoDup; [|apply sublist_take].
  unfold sorted. rewrite merge_sort_Permutation.
  apply NoDup_fst_map_to_list.
Qed.

Lemma top_questions_rows q c :
  (q, c) ∈ top → usage_count <$> m !! q = Some c.
Proof.
  unfold top. rewrite <- fmap_take.
  intros ([k e] & [= -> ->] & Hin%subseteq_take)%list_elem_of_fmap.
  unfold sorted in Hin. rewrite merge_sort_Permutation in Hin.
  apply elem_of_map_to_list in Hin. cbn. by rewrite Hin.
Qed.

Lemma top_questions_dominate k e c :
  m !! k = Some e → k ∉ (fst <$> top) → c ∈ (snd <$> top) →
  (usage_count e ≤ c)%N.
Proof.
  intros Hk Hnot Hc.
  pose proof (StronglySorted_merge_sort by_usage_desc (map_to_list m)) as H.
  fold sorted in H. rewrite <- (take_drop 5 sorted) in H.
  apply StronglySorted_app in H as (Hdom & _ & _).
  assert ((k, e) ∈ sorted) as Hin.
  { unfold sorted. rewrite merge_sort_Permutation.
    by apply elem_of_map_to_list. }
  rewrite <- (take_drop 5 sorted) in Hin.
  apply elem_of_app in Hin as [Hin|Hin].
  - exfalso. apply Hnot. unfold top. rewrite <- fmap_take.
    apply list_elem_of_fmap. exists (k, usage_count e). split; [done|].
    apply list_elem_of_fmap. by exists (k, e).
  - unfold top in Hc. rewrite <- fmap_take in Hc.
    apply list_elem_of_fmap in Hc as ([q c'] & -> & Hc).
    apply list_elem_of_fmap in Hc as (r & [= -> ->] & Hr).
    apply (Hdom r (k, e) Hr Hin).
Qed.

End TopQuestions.

Section Stats.

Variables (msg : Msg) (w : World).

Lemma handleStats_ok :
  outcome 0 w = None → outcome 1 w = None → outcome 2 w = None →
  handleStats msg w =
    (tt, mkWorld (db w) (now w) (tail (tail (tail (faults w))))
           (trace w ++
            [Issued CountMemory; Issued CountLogs; Issued SelectTopQuestions;
             Sent (chat_id msg)
                  (StatsText (size (memory (db w))) (List.length (logs (db w)))
                     (take 5 ((λ r, (fst r, usage_count (snd r))) <$>
                              merge_sort by_usage_desc
                                (map_to_list (memory (db w))))))])).
Proof.
  intros H0 H1 H2.
  unfold handleStats, db_count_memory, db_count_logs, db_top_questions.
  run_M. rewrite H0. run_M.
  rewrite (outcome_shift _ w 0), H1 by done. run_M.
  rewrite (outcome_shift _ (mkWorld (db w) (now w) (tail (faults w)) (trace w)) 0)
    by done.
  rewrite (outcome_shift _ w 1), H2 by done. run_M.
  by rewrite <- !app_assoc.
Qed.

Lemma handleStats_first_failed m :
  outcome 0 w = Some m →
  handleStats msg w =
    (tt, mkWorld (db w) (now w) (tail (faults w))
           (trace w ++ [Issued CountMemory;
                        Logged ("Error getting memory count: " ++ m);
                        Sent (chat_id msg) StatsFailed])).
Proof.
  intros H0. unfold handleStats, db_count_memory. run_M. rewrite H0. run_M.
  by rewrite <- !app_assoc.
Qed.

Lemma handleStats_second_failed m :
  outcome 0 w = None → outcome 1 w = Some m →
  handleStats msg w =
    (tt, mkWorld (db w) (now w) (tail (tail (faults w)))
           (trace w ++ [Issued CountMemory; Issued CountLogs;
                        Logged ("Error getting log count: " ++ m);
                        Sent (chat_id msg) StatsFailed])).
Proof.
  intros H0 H1. unfold handleStats, db_count_memory, db_count_logs.
  run_M. rewrite H0. run_M.
  rewrite (outcome_shift _ w 0), H1 by done. run_M.
  by rewrite <- !app_assoc.
Qed.

Lemma handleStats_third_failed m :
  outcome 0 w = None → outcome 1 w = None → outcome 2 w = Some m →
  handleStats msg w =
    (tt, mkWorld (db w) (now w) (tail (tail (tail (faults w))))
           (trace w ++ [Issued CountMemory; Issued CountLogs;
                        Issued SelectTopQuestions;
                        Logged ("Error getting top questions: " ++ m);
                        Sent (chat_id msg) StatsFailed])).
Proof.
  intros H0 H1 H2.
  unfold handleStats, db_count_memory, db_count_logs, db_top_questions.
  run_M. rewrite H0. run_M.
  rewrite (outcome_shift _ w 0), H1 by done. run_M.
  rewrite (outcome_shift _ (mkWorld (db w) (now w) (tail (faults w)) (trace w)) 0)
    by done.
  rewrite (outcome_shift _ w 1), H2 by done. run_M.
  by rewrite <- !app_assoc.
Qed.

End Stats.

(** X10.  When the three reads go through, the one reply of [/stats] reports the
    number of rows of the store, the number of rows of the log and a list
    of questions with their counts that has five entries, or as many as
    the store has rows, in descending order of count, no question twice,
    each with the count its row has, and such that no row left out has a
    higher count than a row listed.  The database is not changed. *)
Theorem stats_report msg w :
  outcome 0 w = None → outcome 1 w = None → outcome 2 w = None →
  ∃ top,
    sent (snd (handleStats msg w)) =
      (sent w ++ [(chat_id msg,
                   StatsText (size (memory (db w))) (List.length (logs (db w)))
                             top)])%list ∧
    issued (snd (handleStats msg w)) =
      (issued w ++ [CountMemory; CountLogs; SelectTopQuestions])%list ∧
    db (snd (handleStats msg w)) = db w ∧
    List.length top = min 5 (size (memory (db w))) ∧
    StronglySorted (λ x y : string * N, (snd y ≤ snd x)%N) top ∧
    NoDup (fst <$> top) ∧
    (∀ q c, (q, c) ∈ top → usage_count <$> memory (db w) !! q = Some c) ∧
    (∀ k e c, memory (db w) !! k = Some e → k ∉ (fst <$> top) →
              c ∈ (snd <$> top) → (usage_count e ≤ c)%N).
Proof.
  intros H0 H1 H2. rewrite (handleStats_ok msg w H0 H1 H2). cbn [snd db].
  eexists. rewrite sent_trace, sent_world, issued_trace, issued_world. cbn.
  split; [reflexivity|]. split; [reflexivity|]. split; [done|].
  split; [apply top_questions_length|].
  split; [apply top_questions_sorted|].
  split; [apply top_questions_keys|].
  split; [apply top_questions_rows | apply top_questions_dominate].
Qed.

Lemma stats_report_witness :
  ∃ top,
    sent (snd (handleStats (says "/stats") (world used_once 9 []))) =
      [(1%Z, StatsText 1 2 top)] ∧
    List.length top = 1%nat.
Proof.
  destruct (stats_report (says "/stats") (world used_once 9 [])
              eq_refl eq_refl eq_refl) as (top & Hs & _ & _ & Hl & _).
  exists top. split; [exact Hs | exact Hl].
Defined.

(** X11.  [/stats] shows no partial statistics.  The first of its three reads
    that fails ends it: the reads after it are not issued, the failure is
    written to the error log under the name of the read, and the one reply
    is that the statistics could not be retrieved.  The database is not
    changed. *)
Theorem stats_failure msg w n m :
  (n < 3)%nat → outcome n w = Some m →
  (∀ i, (i < n)%nat → outcome i w = None) →
  sent (snd (handleStats msg w)) = (sent w ++ [(chat_id msg, StatsFailed)])%list ∧
  issued (snd (handleStats msg w)) =
    (issued w ++ take (S n) [CountMemory; CountLogs; SelectTopQuestions])%list ∧
  errlog (snd (handleStats msg w)) =
    (errlog w ++
     [(nth n ["Error getting memory count: "; "Error getting log count: ";
              "Error getting top questions: "] "" ++ m)%string])%list ∧
  db (snd (handleStats msg w)) = db w.
Proof.
  intros Hn Ho Hbefore.
  destruct n as [|[|[|n]]]; [| | |lia].
  - rewrite (handleStats_first_failed msg w m Ho). cbn [snd db].
    rewrite sent_trace, sent_world, issued_trace, issued_world,
      errlog_trace, errlog_world. done.
  - rewrite (handleStats_second_failed msg w m (Hbefore 0%nat ltac:(lia)) Ho).
    cbn [snd db].
    rewrite sent_trace, sent_world, issued_trace, issued_world,
      errlog_trace, errlog_world. done.
  - rewrite (handleStats_third_failed msg w m (Hbefore 0%nat ltac:(lia))
               (Hbefore 1%nat ltac:(lia)) Ho).
    cbn [snd db].
    rewrite sent_trace, sent_world, issued_trace, issued_world,
      errlog_trace, errlog_world. done.
Qed.

Lemma stats_failure_witness :
  sent (snd (handleStats (says "/stats")
               (world used_once 9 [None; Some "SQLITE_IOERR"]))) =
    [(1%Z, StatsFailed)] ∧
  issued (snd (handleStats (says "/stats")
                 (world used_once 9 [None; Some "SQLITE_IOERR"]))) =
    [CountMemory; CountLogs].
Proof.
  assert (∀ i, (i < 1)%nat →
               outcome i (world used_once 9 [None; Some "SQLITE_IOERR"]) = None)
    as Hb.
  { intros i Hi. assert (i = 0%nat) as -> by lia. reflexivity. }
  destruct (stats_failure (says "/stats")
              (world used_once 9 [None; Some "SQLITE_IOERR"]) 1 "SQLITE_IOERR"
              ltac:(lia) eq_refl Hb) as (Hs & Hi & _).
  split; [exact Hs | exact Hi].
Defined.

(** ** Replies *)

Section Replies.

Lemma resolve_sent rawText w : sent (snd (resolve rawText w)) = sent w.
Proof.
  destruct (truthy (DEFAULT_KNOWLEDGE_get (normalize rawText))) eqn:Hg.
  { by rewrite resolve_guard_open. }
  destruct (outcome 0 w) as [m|] eqn:Ho.
  { rewrite (resolve_read_failed _ _ Hg m) by done. cbn [snd].
    rewrite sent_trace, sent_world. cbn. apply app_nil_r. }
  destruct (memory (db w) !! normalize rawText) as [e|] eqn:Hm.
  - rewrite (resolve_hit _ _ Hg e) by done. cbn [snd].
    destruct (outcome 1 w); rewrite sent_trace, sent_world; cbn;
      apply app_nil_r.
  - rewrite resolve_miss by done. cbn [snd].
    rewrite sent_trace, sent_world. cbn. apply app_nil_r.
Qed.

Lemma teach_sends_one chat data w :
  ∃ r, sent (snd (teach chat data w)) = (sent w ++ [(chat, r)])%list.
Proof.
  destruct (falsy (questionPart data) || falsy (answerPart data)) eqn:Hc.
  { rewrite teach_invalid by done. eexists. cbn [snd].
    by rewrite sent_trace, sent_world. }
  apply orb_false_elim in Hc as [Hfq Hfa].
  apply falsy_false in Hfq as (q & Hq & Hqne).
  apply falsy_false in Hfa as (a & Ha & Hane).
  destruct (truthy (DEFAULT_KNOWLEDGE_get (toLowerCase q))) eqn:Hg.
  { rewrite (teach_conflict chat data w q a) by done. eexists. cbn [snd].
    by rewrite sent_trace, sent_world. }
  destruct (outcome 0 w) as [m|] eqn:Ho.
  { rewrite (teach_save_failed chat data w q a Hq Ha Hqne Hane m) by done.
    eexists. cbn [snd]. by rewrite sent_trace, sent_world. }
  rewrite (teach_learns chat data w q a) by done. eexists. cbn [snd].
  by rewrite sent_trace, sent_world.
Qed.

Lemma handleStats_sends_one msg w :
  ∃ r, sent (snd (handleStats msg w)) = (sent w ++ [(chat_id msg, r)])%list.
Proof.
  destruct (outcome 0 w) as [m|] eqn:H0.
  { rewrite (handleStats_first_failed msg w m H0). eexists. cbn [snd].
    by rewrite sent_trace, sent_world. }
  destruct (outcome 1 w) as [m|] eqn:H1.
  { rewrite (handleStats_second_failed msg w m H0 H1). eexists. cbn [snd].
    by rewrite sent_trace, sent_world. }
  destruct (outcome 2 w) as [m|] eqn:H2.
  { rewrite (handleStats_third_failed msg w m H0 H1 H2). eexists. cbn [snd].
    by rewrite sent_trace, sent_world. }
  rewrite (handleStats_ok msg w H0 H1 H2). eexists. cbn [snd].
  by rewrite sent_trace, sent_world.
Qed.

Lemma handleMessage_sends_one msg t w :
  text msg = Some t → t ≠ "" →
  ∃ r, sent (snd (handleMessage msg w)) = (sent w ++ [(chat_id msg, r)])%list.
Proof.
  intros Ht Hne.
  destruct (logged_frame msg t w) as (_ & _ & Hs & _).
  destruct (startsWith (trim t) "!teach") eqn:Hq.
  - rewrite (handleMessage_teach msg t w Ht Hne Hq). rewrite <- Hs.
    apply teach_sends_one.
  - rewrite (handleMessage_question msg t w Ht Hne Hq).
    eexists. rewrite (proj1 (sendMessage_effect _ _ _)), resolve_sent, Hs.
    done.
Qed.

Lemma onText_replies msg w :
  List.length (sent (snd ((onText "/help" handleHelp msg;;
                           onText "/stats" handleStats msg) w))) =
    (List.length (sent w) +
     match text msg with
     | Some t => b2n (includes t "/help") + b2n (includes t "/stats")
     | None => 0
     end)%nat.
Proof.
  unfold onText, handleHelp, mbind, M_bind.
  destruct (text msg) as [t|]; [|cbn; lia].
  set (m2 := if includes t "/help"
             then sendMessage (chat_id msg) HelpText else mret tt).
  assert (List.length (sent (snd (m2 w))) =
            (List.length (sent w) + b2n (includes t "/help"))%nat) as Hh.
  { subst m2. destruct (includes t "/help"); cbn [b2n].
    - rewrite (proj1 (sendMessage_effect _ _ _)), length_app. cbn. lia.
    - cbn. lia. }
  destruct (m2 w) as [[] w2]. cbn [snd] in Hh.
  destruct (includes t "/stats"); cbn [b2n].
  - destruct (handleStats_sends_one msg w2) as [r ->].
    rewrite length_app. cbn. lia.
  - cbn. lia.
Qed.

End Replies.

(** X12.  The number of replies to one inbound update is the number of listeners
    that take it: one for a text that is not empty and does not start with
    [/], one more when [/help] occurs anywhere in the text, one more when
    [/stats] does.  So a command gets one reply, an ordinary text one, a
    text that mentions a command in passing gets two or three, and an
    update without text none. *)
Theorem replies_per_update msg w :
  List.length (sent (snd (processUpdate msg w))) =
    (List.length (sent w) +
     match text msg with
     | Some t =>
         b2n (negb (isEmpty t) && negb (startsWith t "/")) +
         b2n (includes t "/help") + b2n (includes t "/stats")
     | None => 0
     end)%nat.
Proof.
  rewrite processUpdate_unfold, onText_replies. unfold onMessage.
  destruct (text msg) as [t|] eqn:Ht; cbn [falsy orElse]; [|cbn; lia].
  destruct (isEmpty t) eqn:He; cbn [negb andb b2n]; [cbn; lia|].
  destruct (startsWith t "/"); cbn [negb b2n]; [cbn; lia|].
  apply isEmpty_false in He.
  destruct (handleMessage_sends_one msg t w Ht He) as [r ->].
  rewrite length_app. cbn. lia.
Qed.

(** ** What a question and what a failed teach leave alone *)

Lemma resolve_memory_cases rawText w :
  memory (db (snd (resolve rawText w))) = memory (db w) ∨
  memory (db (snd (resolve rawText w))) =
    alter bump (normalize rawText) (memory (db w)).
Proof.
  destruct (truthy (DEFAULT_KNOWLEDGE_get (normalize rawText))) eqn:Hg.
  { rewrite resolve_guard_open by done. by left. }
  destruct (outcome 0 w) as [m|] eqn:Ho.
  { rewrite (resolve_read_failed _ _ Hg m) by done. by left. }
  destruct (memory (db w) !! normalize rawText) as [e|] eqn:Hm.
  - rewrite (resolve_hit _ _ Hg e) by done.
    destruct (outcome 1 w); [by left | by right].
  - rewrite resolve_miss by done. by left.
Qed.

(** X13.  A text that is not a teach command creates no row, deletes none and
    changes no answer and no creation time: all it can do to the store is
    to raise the count of the one row under its normalization by one. *)
Theorem question_changes_counts_only msg t w :
  text msg = Some t → t ≠ "" → startsWith (trim t) "!teach" = false →
  ∀ k,
    answer <$> memory (db (snd (handleMessage msg w))) !! k =
      answer <$> memory (db w) !! k ∧
    created_at <$> memory (db (snd (handleMessage msg w))) !! k =
      created_at <$> memory (db w) !! k ∧
    (usage_count <$> memory (db (snd (handleMessage msg w))) !! k =
       usage_count <$> memory (db w) !! k ∨
     k = normalize t ∧
     usage_count <$> memory (db (snd (handleMessage msg w))) !! k =
       (λ e, usage_count e + 1)%N <$> memory (db w) !! k).
Proof.
  intros Ht Hne Hq k.
  rewrite (handleMessage_question msg t w Ht Hne Hq).
  rewrite (proj2 (proj2 (proj2 (sendMessage_effect _ _ _)))).
  destruct (question_logged msg t w) as (Hlm & _).
  destruct (resolve_memory_cases (trim t)
              (snd (saveLog (from_id msg)
                      (orElse (from_username msg) "Unknown") (trim t) w)))
    as [-> | ->]; rewrite Hlm; [auto|].
  rewrite normalize_of_trim, lookup_alter.
  case_decide as Hk; [|auto]. subst k.
  destruct (memory (db w) !! normalize t); cbn; auto.
Qed.

Lemma question_changes_counts_only_witness :
  answer <$> memory (db (snd (handleMessage (says " FOO ")
                                (world used_once 3 [])))) !! "foo" =
    answer <$> memory (db (world used_once 3 [])) !! "foo".
Proof.
  exact (proj1 (question_changes_counts_only (says " FOO ") " FOO "
                  (world used_once 3 []) eq_refl ltac:(discriminate) eq_refl
                  "foo")).
Defined.

(** X14.  A well-formed teach of a question that is not built in, when the
    statement fails: the user is told that saving failed, the failure is
    written to the error log, and the database is the one before, so the
    old answer, if there was one, still stands. *)
Theorem teach_save_failure chat data q a m w :
  questionPart data = Some q → answerPart data = Some a →
  q ≠ "" → a ≠ "" →
  truthy (DEFAULT_KNOWLEDGE_get (normalize q)) = false →
  outcome 0 w = Some m →
  sent (snd (teach chat data w)) = (sent w ++ [(chat, SaveFailed)])%list ∧
  errlog (snd (teach chat data w)) =
    (errlog w ++ [("Error teaching question: " ++ m)%string])%list ∧
  db (snd (teach chat data w)) = db w.
Proof.
  intros Hq Ha Hqne Hane Hg Ho.
  assert (normalize q = toLowerCase q) as Hn.
  { rewrite <- (questionPart_trimmed data q Hq) at 1.
    rewrite normalize_trim. by rewrite (questionPart_trimmed data q Hq). }
  rewrite Hn in Hg.
  rewrite (teach_save_failed chat data w q a Hq Ha Hqne Hane m Hg Ho).
  cbn [snd db].
  by rewrite sent_trace, sent_world, errlog_trace, errlog_world.
Qed.

Lemma teach_save_failure_witness :
  sent (snd (teach 1 "foo | Baz" (world used_once 3 [Some "SQLITE_FULL"]))) =
    [(1%Z, SaveFailed)] ∧
  db (snd (teach 1 "foo | Baz" (world used_once 3 [Some "SQLITE_FULL"]))) =
    used_once.
Proof.
  destruct (teach_save_failure 1 "foo | Baz" "foo" "Baz" "SQLITE_FULL"
              (world used_once 3 [Some "SQLITE_FULL"])
              eq_refl eq_refl ltac:(discriminate) ltac:(discriminate)
              eq_refl eq_refl) as (Hs & _ & Hd).
  split; [exact Hs | exact Hd].
Defined.

(** ** The teach command is a prefix *)

Lemma startsWith_append p rest : startsWith (p ++ rest) p = true.
Proof.
  induction p as [|c p IH]; [by destruct rest|].
  change (Ascii.eqb c c && startsWith (p ++ rest) p = true).
  by rewrite Ascii.eqb_refl, IH.
Qed.

(** X15.  A text is a teach command as soon as its first six code units, after
    trimming, are [!teach]; no blank has to follow.  What follows them is
    the teach input, and nothing is asked of the store: the only
    statements are the insert into the log and, at most, the write of the
    row. *)
Theorem teach_command_is_a_prefix msg t rest w :
  text msg = Some t → t ≠ "" → trim t = ("!teach" ++ rest)%string →
  handleMessage msg w =
    teach (chat_id msg) (trim rest)
      (snd (saveLog (from_id msg) (orElse (from_username msg) "Unknown")
                    (trim t) w)) ∧
  Forall (λ s, match s with
               | InsertLog _ _ _ | InsertOrReplaceMemory _ _ => True
               | _ => False
               end)
         (drop (List.length (issued w)) (issued (snd (handleMessage msg w)))).
Proof.
  intros Ht Hne Hp.
  assert (startsWith (trim t) "!teach" = true) as Hs
    by (rewrite Hp; apply startsWith_append).
  rewrite (handleMessage_teach msg t w Ht Hne Hs), Hp.
  change (substring 6 ("!teach" ++ rest)) with rest.
  split; [done|]. rewrite <- Hp.
  destruct (question_logged msg t w) as (_ & _ & Hli & _).
  set (logged := snd (saveLog _ _ _ w)) in *.
  assert (∃ l, issued (snd (teach (chat_id msg) (trim rest) logged)) =
                 (issued logged ++ l)%list ∧
               (l = [] ∨ ∃ k a, l = [InsertOrReplaceMemory k a]))
    as (l & -> & Hl).
  { set (data := trim rest).
    destruct (falsy (questionPart data) || falsy (answerPart data)) eqn:Hc.
    { rewrite teach_invalid by done. exists []. cbn [snd].
      rewrite issued_trace, issued_world. auto. }
    apply orb_false_elim in Hc as [Hfq Hfa].
    apply falsy_false in Hfq as (q & Hq & Hqne).
    apply falsy_false in Hfa as (a & Ha & Hane).
    destruct (truthy (DEFAULT_KNOWLEDGE_get (toLowerCase q))) eqn:Hg.
    { rewrite (teach_conflict _ data logged q a) by done. exists [].
      cbn [snd]. rewrite issued_trace, issued_world. auto. }
    destruct (outcome 0 logged) as [m|] eqn:Ho.
    { rewrite (teach_save_failed _ data logged q a Hq Ha Hqne Hane m) by done.
      eexists. cbn [snd]. rewrite issued_trace, issued_world.
      split; [reflexivity|]. cbn. eauto. }
    rewrite (teach_learns _ data logged q a) by done.
    eexists. cbn [snd]. rewrite issued_trace, issued_world.
    split; [reflexivity|]. cbn. eauto. }
  rewrite Hli, <- app_assoc, drop_app_length.
  destruct Hl as [-> | (k & a & ->)]; repeat constructor.
Qed.

Lemma teach_command_is_a_prefix_witness :
  sent (snd (handleMessage (says "!teacher who | me") (world emptyDb 0 []))) =
    [(1%Z, Learned "er who" "me")].
Proof.
  destruct (teach_command_is_a_prefix (says "!teacher who | me")
              "!teacher who | me" "er who | me" (world emptyDb 0 [])
              eq_refl ltac:(discriminate) eq_refl) as [-> _].
  reflexivity.
Defined.

(** ** What [trim] and [split] compute *)

Section TrimSplit.

Lemma append_cons c a b : (String c a ++ b)%string = String c (a ++ b).
Proof. reflexivity. Qed.

Lemma append_nil b : ("" ++ b)%string = b.
Proof. reflexivity. Qed.

Lemma trimStart_prefix s :
  ∃ l, s = (l ++ trimStart s)%string ∧ allWs l = true.
Proof.
  induction s as [|c s (l & Hl & Hw)]; [by exists ""|].
  cbn [trimStart]. destruct (is_ws c) eqn:E.
  - exists (String c l). rewrite append_cons. cbn [allWs].
    by rewrite E, <- Hl.
  - by exists "".
Qed.

Lemma trimStart_first s c :
  firstChar (trimStart s) = Some c → is_ws c = false.
Proof.
  induction s as [|d s IH]; [done|]. cbn [trimStart].
  destruct (is_ws d) eqn:E; [done|]. cbn. by intros [= <-].
Qed.

Lemma trimEnd_suffix s :
  ∃ r, s = (trimEnd s ++ r)%string ∧ allWs r = true.
Proof.
  induction s as [|c s (r & Hr & Hw)]; [by exists ""|].
  cbn [trimEnd]. destruct (is_ws c) eqn:Ec; cbn [andb].
  - destruct (isEmpty (trimEnd s)) eqn:Ee.
    + exists (String c s). rewrite append_nil. cbn [allWs]. rewrite Ec.
      apply isEmpty_true, trimEnd_empty in Ee. by rewrite Ee.
    + exists r. rewrite append_cons. by rewrite <- Hr.
  - exists r. rewrite append_cons. by rewrite <- Hr.
Qed.

Lemma trimEnd_last s c : lastChar (trimEnd s) = Some c → is_ws c = false.
Proof.
  induction s as [|d s IH]; [done|]. cbn [trimEnd].
  destruct (trimEnd s) as [|e r] eqn:Er; cbn [isEmpty].
  - rewrite andb_true_r. destruct (is_ws d) eqn:Ed; [done|].
    cbn. by intros [= <-].
  - rewrite andb_false_r. cbn [lastChar]. exact IH.
Qed.

Lemma trimEnd_first s c :
  firstChar (trimEnd s) = Some c → firstChar s = Some c.
Proof.
  destruct s as [|d s]; [done|]. cbn [trimEnd].
  by destruct (is_ws d && isEmpty (trimEnd s)).
Qed.

Lemma split_nonempty sep s : split sep s ≠ [].
Proof. by rewrite split_unfold. Qed.

End TrimSplit.

(** X16.  [trim] cuts whitespace off both ends and nothing else: the text is a
    run of whitespace, the trimmed text and another run of whitespace, and
    the trimmed text neither begins nor ends with whitespace.  This is the
    text the handler logs, classifies and parses. *)
Theorem trim_cuts_both_ends s :
  (∃ l r, s = (l ++ trim s ++ r)%string ∧ allWs l = true ∧ allWs r = true) ∧
  (∀ c, firstChar (trim s) = Some c → is_ws c = false) ∧
  (∀ c, lastChar (trim s) = Some c → is_ws c = false).
Proof.
  unfold trim. split; [|split].
  - destruct (trimStart_prefix s) as (l & Hl & Hwl).
    destruct (trimEnd_suffix (trimStart s)) as (r & Hr & Hwr).
    exists l, r. by rewrite <- Hr, <- Hl.
  - intros c Hc. by eapply trimStart_first, trimEnd_first.
  - apply trimEnd_last.
Qed.

(** X17.  [split] loses nothing: there is one segment more than there are
    separators in the text, no segment holds a separator, and the segments
    joined by the separator are the text again.  So the two segments the
    teacher keeps are the text up to the first separator and the text
    between the first and the second. *)
Theorem split_loses_nothing sep s :
  join sep (split sep s) = s ∧
  Forall (λ seg, hasChar sep seg = false) (split sep s) ∧
  List.length (split sep s) = S (countChar sep s).
Proof.
  induction s as [|c s (Hj & Hf & Hl)]; [by repeat constructor|].
  cbn [split countChar].
  destruct (split sep s) as [|seg rest] eqn:Es;
    [by apply split_nonempty in Es|].
  destruct (Ascii.eqb_spec c sep) as [->|Hne].
  - split.
    { change (("" ++ String sep (join sep (seg :: rest)))%string = String sep s).
      by rewrite append_nil, Hj. }
    split; [by constructor | cbn; cbn in Hl; lia].
  - apply Forall_cons in Hf as [Hseg Hrest].
    split.
    + destruct rest; cbn [join] in *; rewrite ?append_cons; by rewrite Hj.
    + split; [|cbn; cbn in Hl; lia].
      constructor; [|done]. cbn [hasChar].
      rewrite Hseg, orb_false_r. by apply Ascii.eqb_neq.
Qed.

(** ** Built-in questions need no store *)

Lemma startsWith_toLowerCase s p :
  startsWith s p = true →
  startsWith (toLowerCase s) (toLowerCase p) = true.
Proof.
  revert p. induction s as [|c s IH]; intros [|d p]; cbn [startsWith toLowerCase];
    try done.
  intros [Hc Hs]%andb_prop. apply Ascii.eqb_eq in Hc as ->.
  by rewrite Ascii.eqb_refl, IH.
Qed.

Lemma builtin_is_no_command k a :
  assoc k DEFAULT_KNOWLEDGE = Some a → startsWith k "!teach" = false ∧ k ≠ "".
Proof.
  intros H. unfold DEFAULT_KNOWLEDGE in H.
  assoc_cases H; try (split; [reflexivity | discriminate]). discriminate H.
Qed.

(** X18.  A text that normalizes to a key of the built-in table is answered from
    the table whatever the database does: the reply is the built-in answer
    also when every statement fails, the only statement issued is the
    insert into the log, and the store is not touched. *)
Theorem builtin_answered_without_store msg t w a :
  text msg = Some t →
  assoc (normalize t) DEFAULT_KNOWLEDGE = Some a →
  sent (snd (handleMessage msg w)) =
    (sent w ++ [(chat_id msg, Answer (VString a))])%list ∧
  issued (snd (handleMessage msg w)) =
    (issued w ++ [InsertLog (from_id msg) (orElse (from_username msg) "Unknown")
                            (trim t)])%list ∧
  memory (db (snd (handleMessage msg w))) = memory (db w).
Proof.
  intros Ht Hk.
  destruct (builtin_is_no_command _ _ Hk) as [Hnc Hkne].
  destruct (builtin_get _ _ Hk) as [Hget Hane].
  assert (t ≠ "") as Hne by (intros ->; by apply Hkne).
  assert (startsWith (trim t) "!teach" = false) as Hq.
  { destruct (startsWith (trim t) "!teach") eqn:E; [|done].
    apply startsWith_toLowerCase in E. rewrite <- toLowerCase_trim in E.
    fold (normalize t) in E. cbn [toLowerCase] in E.
    change (startsWith (normalize t) "!teach" = true) in E. congruence. }
  question_setup msg t w Hlm Hls Hli Hlo Hle.
  destruct (sendMessage_effect (chat_id msg)
              (answerReply (fst (fst (resolve (trim t) logged)))
                           (snd (fst (resolve (trim t) logged))))
              (snd (resolve (trim t) logged))) as (-> & -> & _ & ->).
  rewrite resolve_guard_open; rewrite normalize_of_trim, Hget;
    [|cbn; by apply isEmpty_false in Hane as ->].
  cbn [fst snd]. unfold answerReply. cbn [truthy].
  apply isEmpty_false in Hane. rewrite Hane. cbn [negb].
  by rewrite Hls, Hli, Hlm.
Qed.

Lemma builtin_answered_without_store_witness :
  sent (snd (handleMessage (says "  Hello ")
               (world emptyDb 0 [Some "down"; Some "down"; Some "down"]))) =
    [(1%Z, Answer (VString "Hello! How can I help you today?"))].
Proof.
  exact (proj1 (builtin_answered_without_store (says "  Hello ") "  Hello "
                  (world emptyDb 0 [Some "down"; Some "down"; Some "down"])
                  "Hello! How can I help you today?" eq_refl eq_refl)).
Defined.

(** ** Logging is best effort *)

Section Agree.

Variables (w1 w2 : World).
Hypothesis Hag : agree w1 w2.

Lemma agree_outcome n : outcome n w1 = outcome n w2.
Proof using Hag. unfold outcome. by destruct Hag as (_ & _ & -> & _). Qed.

Lemma agree_events d1 d2 evs fs1 fs2 :
  memory d1 = memory d2 → fs1 = fs2 →
  agree (mkWorld d1 (now w1) fs1 (trace w1 ++ evs))
        (mkWorld d2 (now w2) fs2 (trace w2 ++ evs)).
Proof using Hag.
  intros Hm Hf. destruct Hag as (_ & Hn & _ & Hs).
  unfold agree. cbn [db now faults].
  rewrite !sent_trace, !sent_world, Hs. done.
Qed.

Lemma teach_agree chat data :
  agree (snd (teach chat data w1)) (snd (teach chat data w2)).
Proof using Hag.
  pose proof Hag as (Hm & Hn & Hf & Hs).
  destruct (falsy (questionPart data) || falsy (answerPart data)) eqn:Hc.
  { rewrite !teach_invalid by done. by apply agree_events. }
  apply orb_false_elim in Hc as [Hfq Hfa].
  apply falsy_false in Hfq as (q & Hq & Hqne).
  apply falsy_false in Hfa as (a & Ha & Hane).
  destruct (truthy (DEFAULT_KNOWLEDGE_get (toLowerCase q))) eqn:Hg.
  { rewrite (teach_conflict chat data w1 q a), (teach_conflict chat data w2 q a)
      by done.
    by apply agree_events. }
  pose proof (agree_outcome 0) as Ho.
  destruct (outcome 0 w2) as [m|] eqn:Ho2.
  { rewrite (teach_save_failed chat data w1 q a Hq Ha Hqne Hane m),
      (teach_save_failed chat data w2 q a Hq Ha Hqne Hane m) by done.
    apply agree_events; [done | by rewrite Hf]. }
  rewrite (teach_learns chat data w1 q a), (teach_learns chat data w2 q a)
    by done.
  cbn [snd]. apply agree_events; cbn [memory]; by rewrite ?Hm, ?Hn, ?Hf.
Qed.

Lemma resolve_agree rawText :
  fst (resolve rawText w1) = fst (resolve rawText w2) ∧
  agree (snd (resolve rawText w1)) (snd (resolve rawText w2)).
Proof using Hag.
  pose proof Hag as (Hm & Hn & Hf & Hs).
  destruct (truthy (DEFAULT_KNOWLEDGE_get (normalize rawText))) eqn:Hg.
  { by rewrite !resolve_guard_open. }
  pose proof (agree_outcome 0) as Ho0. pose proof (agree_outcome 1) as Ho1.
  destruct (outcome 0 w2) as [m|] eqn:Ho.
  { rewrite (resolve_read_failed _ w1 Hg m), (resolve_read_failed _ w2 Hg m)
      by done.
    split; [done|]. apply agree_events; [done | by rewrite Hf]. }
  destruct (memory (db w2) !! normalize rawText) as [e|] eqn:Hl.
  - rewrite (resolve_hit _ w1 Hg e), (resolve_hit _ w2 Hg e)
      by (done || by rewrite Hm).
    rewrite Ho1. split; [done|]. cbn [snd].
    destruct (outcome 1 w2); apply agree_events; cbn [memory];
      by rewrite ?Hm, ?Hf.
  - rewrite (resolve_miss _ w1 Hg), (resolve_miss _ w2 Hg)
      by (done || by rewrite Hm).
    split; [done|]. apply agree_events; [done | by rewrite Hf].
Qed.

End Agree.

(** X19.  A failed insert into the log is not fatal and changes nothing else:
    the failure is written to the error log and the log keeps its rows,
    and the replies and the store after the message are exactly the ones
    of the run in which the insert went through. *)
Theorem log_failure_is_harmless msg t w m :
  text msg = Some t → t ≠ "" →
  outcome 0 w = Some m →
  sent (snd (handleMessage msg w)) =
    sent (snd (handleMessage msg
                 (mkWorld (db w) (now w) (None :: tail (faults w)) (trace w)))) ∧
  memory (db (snd (handleMessage msg w))) =
    memory (db (snd (handleMessage msg
                       (mkWorld (db w) (now w) (None :: tail (faults w))
                                (trace w))))) ∧
  logs (db (snd (handleMessage msg w))) = logs (db w) ∧
  ("Error saving log: " ++ m)%string ∈ errlog (snd (handleMessage msg w)).
Proof.
  intros Ht Hne Ho.
  set (w' := mkWorld (db w) (now w) (None :: tail (faults w)) (trace w)).
  set (uname := orElse (from_username msg) "Unknown").
  set (l := snd (saveLog (from_id msg) uname (trim t) w)).
  set (l' := snd (saveLog (from_id msg) uname (trim t) w')).
  assert (agree l l') as Hag.
  { assert (outcome 0 w' = None) as Ho' by reflexivity.
    subst l l'. rewrite !saveLog_effect, Ho, Ho'. cbn [snd].
    unfold agree. cbn [db memory now faults w'].
    rewrite !sent_trace, !sent_world. cbn [tail]. done. }
  assert (logs (db l) = logs (db w) ∧
          ("Error saving log: " ++ m)%string ∈ errlog l) as [Hll Hel].
  { subst l. rewrite saveLog_effect, Ho. cbn [snd db].
    rewrite errlog_trace, errlog_world. split; [done|]. set_solver. }
  destruct (startsWith (trim t) "!teach") eqn:Hq.
  - rewrite (handleMessage_teach msg t w Ht Hne Hq),
      (handleMessage_teach msg t w' Ht Hne Hq).
    fold uname l l'.
    destruct (teach_agree l l' Hag (chat_id msg) (trim (substring 6 (trim t))))
      as (Hm' & _ & _ & Hs').
    split; [done|]. split; [done|].
    split; [by rewrite (proj1 (proj2 (teach_memory _ _ l)))|].
    destruct (teach_quiet (chat_id msg) (trim (substring 6 (trim t))) l)
      as (evs & Htr & _).
    unfold errlog in *. rewrite Htr, omap_app. apply elem_of_app. by left.
  - rewrite (handleMessage_question msg t w Ht Hne Hq),
      (handleMessage_question msg t w' Ht Hne Hq).
    fold uname l l'.
    destruct (resolve_agree l l' Hag (trim t)) as (Hr & Hm' & _ & _ & Hs').
    destruct (sendMessage_effect (chat_id msg)
                (answerReply (fst (fst (resolve (trim t) l)))
                             (snd (fst (resolve (trim t) l))))
                (snd (resolve (trim t) l))) as (-> & _ & -> & ->).
    destruct (sendMessage_effect (chat_id msg)
                (answerReply (fst (fst (resolve (trim t) l')))
                             (snd (fst (resolve (trim t) l'))))
                (snd (resolve (trim t) l'))) as (-> & _ & _ & ->).
    rewrite Hr, Hs', Hm'. split; [done|]. split; [done|].
    split; [by rewrite (proj1 (proj2 (resolve_memory _ l)))|].
    destruct (resolve_quiet (trim t) l) as (evs & Htr & _).
    unfold errlog in *. rewrite Htr, omap_app. apply elem_of_app. by left.
Qed.

Lemma log_failure_is_harmless_witness :
  sent (snd (handleMessage (says "foo") (world used_once 3 [Some "SQLITE_FULL"])))
    = [(1%Z, Answer (VString "Bar"))] ∧
  logs (db (snd (handleMessage (says "foo")
                   (world used_once 3 [Some "SQLITE_FULL"])))) =
    logs used_once.
Proof.
  destruct (log_failure_is_harmless (says "foo") "foo"
              (world used_once 3 [Some "SQLITE_FULL"]) "SQLITE_FULL"
              eq_refl ltac:(discriminate) eq_refl) as (Hs & _ & Hl & _).
  split; [rewrite Hs; reflexivity | exact Hl].
Defined.
